(** * idb-helper: the IndexedDB facade and its specification

    A shallow embedding of [src/index.ts].  The file holds two variants of the
    class [IDBHelper]:

    - the first one (module [PerCall]) opens the database again at the start
      of every operation ([openDB], then the transaction);
    - the second one (module [Cached]) opens the database once, from the
      constructor ([init]), keeps the handle in [this.db] and builds every
      transaction from that field ([tx]).

    The browser's storage engine is not part of the repository.  It is
    modelled here as far as the facade observes it: one database holding one
    object store with key path [id] and a key generator, requests that fire
    [success] or [error], transactions that fire [complete], [error] (bubbled
    from a request) or [abort].  What the engine decides on its own (quota,
    constraint or I/O failures) is a script of decisions carried by the
    world: a statement either quantifies over that script or says that it is
    empty.

    Numbers are modelled as integers: every [id] of the facade's signatures is
    a [number], the key generator only produces integers, and the key space of
    the store is [Z]. *)

From Stdlib Require Import ZArith List String Bool Lia Sorted.
Import ListNotations.
Local Open Scope Z_scope.

Local Set Warnings "-register-all".

(** ** JavaScript values and objects *)

Inductive value : Type :=
| VUndef
| VNull
| VBool (b : bool)
| VNum (n : Z)
| VStr (s : string)
| VObj (fields : list (string * value)).

(** An object is the list of its own properties, in insertion order. *)
Definition obj : Type := list (string * value).

Definition ID : string := "id"%string.

(** [!!v] *)
Definition truthy (v : value) : bool :=
  match v with
  | VUndef | VNull => false
  | VBool b => b
  | VNum n => negb (n =? 0)
  | VStr s => negb (String.eqb s EmptyString)
  | VObj _ => true
  end.

Fixpoint get_field (k : string) (o : obj) : option value :=
  match o with
  | [] => None
  | (k', v) :: r => if String.eqb k k' then Some v else get_field k r
  end.

(** [o.k]: a missing property reads as [undefined]. *)
Definition prop (o : obj) (k : string) : value :=
  match get_field k o with
  | Some v => v
  | None => VUndef
  end.

(** [o[k] = v]: an existing property keeps its place, a new one goes last. *)
Fixpoint set_field (k : string) (v : value) (o : obj) : obj :=
  match o with
  | [] => [(k, v)]
  | (k', v') :: r =>
      if String.eqb k k' then (k, v) :: r else (k', v') :: set_field k v r
  end.

(** [{...target, ...src}]: the own properties of [src] are copied over
    [target] one by one. *)
Definition spread (target src : obj) : obj :=
  fold_left (fun acc kv => set_field (fst kv) (snd kv) acc) src target.

(** The own enumerable properties a spread copies out of a value; a
    primitive that is not a string has none. *)
Definition own_props (v : value) : obj :=
  match v with
  | VObj o => o
  | _ => []
  end.

(** ** What a promise is rejected with *)

Inductive DOMException : Type :=
| DataError
| NotFoundError
| InvalidStateError
| VersionError
| ConstraintError
| QuotaExceededError
| UnknownError
| AbortError
| ReadOnlyError.

Inductive reason : Type :=
| RTypeError                 (* property read on [undefined] *)
| RDom (e : DOMException)    (* an exception or error of the engine *)
| RError (msg : string)      (* [new Error(msg)] *)
| RNull.                     (* the value [null] *)

Inductive outcome (A : Type) : Type :=
| Resolved (a : A)
| Rejected (r : reason)
| Pending.

Arguments Resolved {A} a.
Arguments Rejected {A} r.
Arguments Pending {A}.

(** [resolve] and [reject] only act on a promise that is still pending. *)
Definition settle {A} (p next : outcome A) : outcome A :=
  match p with
  | Pending => next
  | _ => p
  end.

(** ** The object store of the engine *)

(** Modelled from the spec: the object store behind the capability interface
    (put, get, getAll, delete, clear, count, index lookup), which the
    repository consumes and does not implement.  Records are kept in
    ascending key order; [keygen] is the key generator's current number;
    [indexes] lists the declared secondary indexes as (name, key path). *)
Record IDBObjectStore : Type := mkStore {
  entries : list (Z * obj);
  keygen : Z;
  indexes : list (string * string)
}.

(** Modelled from the spec: the store [createObjectStore] returns, with
    [{ keyPath: "id", autoIncrement: true }] and no index. *)
Definition empty_store : IDBObjectStore := mkStore [] 1 [].

Fixpoint lookup (k : Z) (es : list (Z * obj)) : option obj :=
  match es with
  | [] => None
  | (k', o) :: r => if k' =? k then Some o else lookup k r
  end.

Fixpoint insert (k : Z) (o : obj) (es : list (Z * obj)) : list (Z * obj) :=
  match es with
  | [] => [(k, o)]
  | (k', o') :: r =>
      if k <? k' then (k, o) :: (k', o') :: r
      else if k =? k' then (k, o) :: r
      else (k', o') :: insert k o r
  end.

Definition remove (k : Z) (es : list (Z * obj)) : list (Z * obj) :=
  filter (fun e => negb (fst e =? k)) es.

(** Modelled from the spec: how the engine finds the key of a value put into
    a store with key path [id]: the property is a key, or it is missing (or
    [undefined]) and the generator supplies one, or it holds something that
    is no key.  The keys of this development are the numbers, as the spec's
    records carry a numeric [id]: a string, which the engine would take as a
    key, is outside this key space, and the statements below that draw on a
    rejected [put] name the values that are no key for the engine either
    ([no_key]). *)
Inductive key_source : Type :=
| KeyGiven (k : Z)
| KeyGenerate
| KeyInvalid.

Definition extract_key (data : obj) : key_source :=
  match get_field ID data with
  | None => KeyGenerate
  | Some VUndef => KeyGenerate
  | Some (VNum k) => KeyGiven k
  | Some _ => KeyInvalid
  end.

(** Modelled from the spec: [put] replaces the record sharing the key, or
    stores the value under the next generated key, which is written into its
    [id].  It answers with the key. *)
Definition store_put (data : obj) (s : IDBObjectStore) : Z * IDBObjectStore :=
  match extract_key data with
  | KeyGiven k =>
      (k, mkStore (insert k data (entries s)) (Z.max (keygen s) (k + 1)) (indexes s))
  | _ =>
      let k := keygen s in
      (k, mkStore (insert k (set_field ID (VNum k) data) (entries s)) (k + 1) (indexes s))
  end.

(** Modelled from the spec: [get] answers with the record or [undefined]. *)
Definition store_get (k : Z) (s : IDBObjectStore) : value :=
  match lookup k (entries s) with
  | Some o => VObj o
  | None => VUndef
  end.

(** Modelled from the spec: [getAll] answers with all records in key order. *)
Definition store_getAll (s : IDBObjectStore) : list obj :=
  map snd (entries s).

(** Modelled from the spec: deleting an absent key changes nothing. *)
Definition store_delete (k : Z) (s : IDBObjectStore) : IDBObjectStore :=
  mkStore (remove k (entries s)) (keygen s) (indexes s).

(** Modelled from the spec: [clear] removes the records; the store, its key
    generator and its indexes stay. *)
Definition store_clear (s : IDBObjectStore) : IDBObjectStore :=
  mkStore [] (keygen s) (indexes s).

Definition store_count (s : IDBObjectStore) : Z :=
  Z.of_nat (List.length (entries s)).

(** Keys an index can be asked for. *)
Inductive key : Type :=
| KNum (n : Z)
| KStr (s : string).

Definition to_key (v : value) : option key :=
  match v with
  | VNum n => Some (KNum n)
  | VStr s => Some (KStr s)
  | _ => None
  end.

Definition key_eqb (a b : key) : bool :=
  match a, b with
  | KNum x, KNum y => x =? y
  | KStr x, KStr y => String.eqb x y
  | _, _ => false
  end.

Definition index_matches (keyPath : string) (k : key) (o : obj) : bool :=
  match get_field keyPath o with
  | Some v =>
      match to_key v with
      | Some k' => key_eqb k k'
      | None => false
      end
  | None => false
  end.

(** Modelled from the spec: the index answers with the first record, in key
    order, whose indexed property holds the value, or with [undefined]. *)
Definition store_index_get (keyPath : string) (k : key) (s : IDBObjectStore) : value :=
  match find (fun e => index_matches keyPath k (snd e)) (entries s) with
  | Some e => VObj (snd e)
  | None => VUndef
  end.

Fixpoint index_keyPath (name : string) (ixs : list (string * string)) : option string :=
  match ixs with
  | [] => None
  | (n, kp) :: r => if String.eqb name n then Some kp else index_keyPath name r
  end.

(** ** The engine as the facade drives it *)

Inductive IDBTransactionMode : Type :=
| Readonly
| Readwrite.

(** The calls the facade makes on the engine, in the order it makes them. *)
Inductive call : Type :=
| COpen (version : Z)
| CTransaction (mode : IDBTransactionMode)
| CPut (data : obj)
| CGet (k : Z)
| CGetAll
| CDelete (k : Z)
| CClear
| CCount
| CIndex (name : string)
| CIndexGet (v : value).

(** The database named [dbName], as the engine keeps it: its version and
    the object store named [storeName], when it has one.  Other stores of the
    database are never touched by the facade and are left out. *)
Record database_state : Type := mkDb {
  dbversion : Z;
  objectStore : option IDBObjectStore
}.

(** The world outside the facade: the database (absent before its first
    open), the decisions the engine is going to take on the coming requests
    ([None]: the request or commit goes through, [Some e]: it fails with
    [e]; an exhausted script means no more failures), and the calls made so
    far. *)
Record world : Type := mkWorld {
  database : option database_state;
  faults : list (option DOMException);
  log : list call
}.

(** A connection, as [request.result] of an open request. *)
Record IDBDatabase : Type := mkHandle {
  closed : bool
}.

(** What a request fires. *)
Inductive event (A : Type) : Type :=
| Success (result : A)
| Failure (error : DOMException).

Arguments Success {A} result.
Arguments Failure {A} error.

(** What a transaction fires at its own handlers: [complete], an [error]
    bubbled from one of its requests (with the value its [error] attribute
    holds while the handlers run) or [abort]. *)
Inductive tx_event : Type :=
| TxComplete
| TxError (tx_error : option DOMException)
| TxAbort.

(** Synchronous code running against the world: it returns or throws. *)
Definition M (A : Type) : Type := world -> (A + reason) * world.

Definition ret {A} (a : A) : M A := fun w => (inl a, w).

Definition throw {A} (r : reason) : M A := fun w => (inr r, w).

Definition bind {A B} (m : M A) (k : A -> M B) : M B :=
  fun w =>
    match m w with
    | (inl a, w') => k a w'
    | (inr r, w') => (inr r, w')
    end.

Notation "x <- m ;; k" := (bind m (fun x => k))
  (at level 61, m at next level, right associativity).
Notation "m ;;; k" := (bind m (fun _ => k))
  (at level 61, right associativity).

Definition record_call (c : call) : M unit :=
  fun w => (inl tt, mkWorld (database w) (faults w) (log w ++ [c])).

Definition next_fault : M (option DOMException) :=
  fun w =>
    match faults w with
    | [] => (inl None, w)
    | f :: fs => (inl f, mkWorld (database w) fs (log w))
    end.

Definition current_store (w : world) : option IDBObjectStore :=
  match database w with
  | Some d => objectStore d
  | None => None
  end.

Definition the_store : M IDBObjectStore :=
  fun w =>
    match current_store w with
    | Some s => (inl s, w)
    | None => (inr (RDom NotFoundError), w)
    end.

Definition set_store (s : IDBObjectStore) : M unit :=
  fun w =>
    match database w with
    | Some d => (inl tt, mkWorld (Some (mkDb (dbversion d) (Some s))) (faults w) (log w))
    | None => (inl tt, w)
    end.

(** Modelled from the spec: the engine's side of an open request.  A
    database that is missing or older than [version] is upgraded, which runs
    the [onupgradeneeded] callback on its store; a newer one refuses the open
    with VersionError. *)
Definition process_open (version : Z)
    (onupgradeneeded : option IDBObjectStore -> option IDBObjectStore)
  : M (event IDBDatabase) :=
  f <- next_fault ;;
  match f with
  | Some e => ret (Failure e)
  | None =>
      fun w =>
        match database w with
        | None =>
            (inl (Success (mkHandle false)),
             mkWorld (Some (mkDb version (onupgradeneeded None))) (faults w) (log w))
        | Some d =>
            if dbversion d <? version then
              (inl (Success (mkHandle false)),
               mkWorld (Some (mkDb version (onupgradeneeded (objectStore d))))
                       (faults w) (log w))
            else if dbversion d =? version then
              (inl (Success (mkHandle false)), w)
            else (inl (Failure VersionError), w)
        end
  end.

(** Modelled from the spec: [db.transaction(storeName, mode)] throws on a
    closed connection and on a store the database does not have. *)
Definition transaction (h : IDBDatabase) (mode : IDBTransactionMode)
  : M IDBTransactionMode :=
  record_call (CTransaction mode) ;;;
  if closed h then throw (RDom InvalidStateError)
  else (_ <- the_store ;; ret mode).

(** Modelled from the spec: a request that only reads. *)
Definition read_request {A} (f : IDBObjectStore -> A) : M (event A) :=
  e <- next_fault ;;
  match e with
  | Some err => ret (Failure err)
  | None => s <- the_store ;; ret (Success (f s))
  end.

(** Modelled from the spec: the only request of a read-write transaction.
    The request fires [success] before the transaction commits; a commit
    that fails leaves the store as it was. *)
Definition write_request {A} (mode : IDBTransactionMode)
    (f : IDBObjectStore -> A * IDBObjectStore) : M (event A) :=
  match mode with
  | Readonly => throw (RDom ReadOnlyError)
  | Readwrite =>
      s0 <- the_store ;;
      e <- next_fault ;;
      match e with
      | Some err => ret (Failure err)
      | None =>
          c <- next_fault ;;
          match c with
          | Some _ => ret (Success (fst (f s0)))
          | None => set_store (snd (f s0)) ;;; ret (Success (fst (f s0)))
          end
      end
  end.

Definition put (store : IDBTransactionMode) (data : obj) : M (event Z) :=
  record_call (CPut data) ;;;
  match extract_key data with
  | KeyInvalid => throw (RDom DataError)
  | _ => write_request store (store_put data)
  end.

Definition get (store : IDBTransactionMode) (k : Z) : M (event value) :=
  record_call (CGet k) ;;; read_request (store_get k).

Definition getAll (store : IDBTransactionMode) : M (event (list obj)) :=
  record_call CGetAll ;;; read_request store_getAll.

Definition delete (store : IDBTransactionMode) (k : Z) : M (event unit) :=
  record_call (CDelete k) ;;;
  write_request store (fun s => (tt, store_delete k s)).

Definition clear_store (store : IDBTransactionMode) : M (event unit) :=
  record_call CClear ;;;
  write_request store (fun s => (tt, store_clear s)).

Definition count_store (store : IDBTransactionMode) : M (event Z) :=
  record_call CCount ;;; read_request store_count.

(** [store.index(name)] throws NotFoundError for a name that was not
    declared; it answers with the index, here its key path. *)
Definition index (store : IDBTransactionMode) (name : string) : M string :=
  record_call (CIndex name) ;;;
  s <- the_store ;;
  match index_keyPath name (indexes s) with
  | Some kp => ret kp
  | None => throw (RDom NotFoundError)
  end.

(** [index.get(value)] throws DataError for a value that is no key. *)
Definition index_get (keyPath : string) (v : value) : M (event value) :=
  record_call (CIndexGet v) ;;;
  match to_key v with
  | Some k => read_request (store_index_get keyPath k)
  | None => throw (RDom DataError)
  end.

(** Requests placed in one shared transaction. *)
Inductive tx_request : Type :=
| TxPut (data : obj)
| TxDelete (k : Z).

Definition apply_request (r : tx_request) (s : IDBObjectStore) : IDBObjectStore :=
  match r with
  | TxPut data => snd (store_put data s)
  | TxDelete k => store_delete k s
  end.

(** Modelled from the spec: the engine runs the requests of a transaction in
    the order they were placed.  The first request that fails fires [error],
    which bubbles to the transaction while the transaction's own [error] is
    still unset: the engine dispatches the event first and aborts the
    transaction, setting its [error], only once the handlers have returned
    without cancelling the event.  Every request still waiting then fires
    [error] in turn, and [abort] comes last.  The result is the store to
    commit, when no request failed, and the events seen by the
    transaction. *)
Fixpoint run_requests (reqs : list tx_request) (s : IDBObjectStore)
  : M (option IDBObjectStore * list tx_event) :=
  match reqs with
  | [] => ret (Some s, [])
  | r :: rest =>
      e <- next_fault ;;
      match e with
      | Some err =>
          ret (None,
               TxError None :: (map (fun _ => TxError (Some err)) rest ++ [TxAbort])%list)
      | None => run_requests rest (apply_request r s)
      end
  end.

(** Modelled from the spec: when every request went through the transaction
    commits and fires [complete]; a commit that fails reverts the writes and
    fires [abort] alone, no request being left to fire [error]. *)
Definition run_transaction (reqs : list tx_request) : M (list tx_event) :=
  s0 <- the_store ;;
  res <- run_requests reqs s0 ;;
  match fst res with
  | None => ret (snd res)
  | Some s1 =>
      c <- next_fault ;;
      match c with
      | Some _ => ret [TxAbort]
      | None => set_store s1 ;;; ret [TxComplete]
      end
  end.

(** ** Promises *)

Definition Promise (A : Type) : Type := world -> outcome A * world.

(** [new Promise(executor)]: an executor that throws rejects the promise. *)
Definition new_Promise {A} (executor : M (outcome A)) : Promise A :=
  fun w =>
    match executor w with
    | (inl o, w') => (o, w')
    | (inr r, w') => (Rejected r, w')
    end.

(** [await p] followed by [k]: a rejection of [p] is thrown past [k]. *)
Definition await {A B} (p : Promise A) (k : A -> Promise B) : Promise B :=
  fun w =>
    match p w with
    | (Resolved a, w') => k a w'
    | (Rejected r, w') => (Rejected r, w')
    | (Pending, w') => (Pending, w')
    end.

(** [request.onsuccess = () => resolve(f(request.result));
     request.onerror = () => reject(request.error)] *)
Definition on_request {A B} (request : event A) (f : A -> B) : outcome B :=
  match request with
  | Success result => Resolved (f result)
  | Failure error => Rejected (RDom error)
  end.

(** The callback both variants install as [onupgradeneeded]. *)
Definition onupgradeneeded (s : option IDBObjectStore) : option IDBObjectStore :=
  match s with
  | None => Some empty_store
  | Some s' => Some s'
  end.

(** ToNumber, as far as the values of this development go: [None] is NaN.
    Strings are left at NaN; no string is ever compared below, the [id] of a
    stored record being its numeric key. *)
Definition to_number (v : value) : option Z :=
  match v with
  | VNum n => Some n
  | VNull => Some 0
  | VBool b => Some (if b then 1 else 0)
  | _ => None
  end.

(** [v >= n] and [v <= n] *)
Definition js_ge (v : value) (n : Z) : bool :=
  match to_number v with
  | Some a => n <=? a
  | None => false
  end.

Definition js_le (v : value) (n : Z) : bool :=
  match to_number v with
  | Some a => a <=? n
  | None => false
  end.

Definition resolved {A} (a : A) : Promise A := fun w => (Resolved a, w).

Definition rejected {A} (r : reason) : Promise A := fun w => (Rejected r, w).

(** ** The variant that opens the database in every operation *)

Module PerCall.

(** [dbName] and [storeName] select the database and the store the world
    stands for; [version] is what is left of the fields. *)
Record IDBHelper : Type := mkHelper {
  version : Z
}.

Definition openDB (this : IDBHelper) : Promise IDBDatabase :=
  new_Promise (
    record_call (COpen (version this)) ;;;
    request <- process_open (version this) onupgradeneeded ;;
    ret (on_request request (fun result => result))).

Definition setItem (this : IDBHelper) (data : obj) : Promise Z :=
  await (openDB this) (fun db =>
    new_Promise (
      store <- transaction db Readwrite ;;
      request <- put store data ;;
      ret (on_request request (fun result => result)))).

Definition getItem (this : IDBHelper) (id : Z) : Promise value :=
  await (openDB this) (fun db =>
    new_Promise (
      store <- transaction db Readonly ;;
      request <- get store id ;;
      ret (on_request request (fun result => result)))).

Definition getAllItems (this : IDBHelper) : Promise (list obj) :=
  await (openDB this) (fun db =>
    new_Promise (
      store <- transaction db Readonly ;;
      request <- getAll store ;;
      ret (on_request request (fun result => result)))).

Definition removeItem (this : IDBHelper) (id : Z) : Promise unit :=
  await (openDB this) (fun db =>
    new_Promise (
      store <- transaction db Readwrite ;;
      request <- delete store id ;;
      ret (on_request request (fun _ => tt)))).

Definition clear (this : IDBHelper) : Promise unit :=
  await (openDB this) (fun db =>
    new_Promise (
      store <- transaction db Readwrite ;;
      request <- clear_store store ;;
      ret (on_request request (fun _ => tt)))).

End PerCall.

(** ** The variant that opens the database from its constructor *)

Module Cached.

(** [db] is [this.db], unset until the open request of [init] succeeds;
    [opening] tells that this request has not fired its event yet. *)
Record IDBHelper : Type := mkHelper {
  version : Z;
  db : option IDBDatabase;
  opening : bool
}.

(** [init] places the open request and returns. *)
Definition init (version : Z) : M unit :=
  record_call (COpen version).

Definition constructor (version : Z) (w : world) : IDBHelper * world :=
  (mkHelper version None true, snd (init version w)).

(** The task in which the engine answers the open request of [init]:
    [onsuccess] stores the connection, [onerror] only writes to the
    console. *)
Definition init_task (this : IDBHelper) (w : world) : IDBHelper * world :=
  if opening this then
    match process_open (version this) onupgradeneeded w with
    | (inl (Success result), w') => (mkHelper (version this) (Some result) false, w')
    | (_, w') => (mkHelper (version this) (db this) false, w')
    end
  else (this, w).

Definition tx (this : IDBHelper) (mode : IDBTransactionMode) : M IDBTransactionMode :=
  match db this with
  | None => throw RTypeError
  | Some h => transaction h mode
  end.

Definition setItem (this : IDBHelper) (data : obj) : Promise Z :=
  new_Promise (
    store <- tx this Readwrite ;;
    request <- put store data ;;
    ret (on_request request (fun result => result))).

Definition getItem (this : IDBHelper) (id : Z) : Promise value :=
  new_Promise (
    store <- tx this Readonly ;;
    request <- get store id ;;
    ret (on_request request (fun result => result))).

Definition getAllItems (this : IDBHelper) : Promise (list obj) :=
  new_Promise (
    store <- tx this Readonly ;;
    request <- getAll store ;;
    ret (on_request request (fun result => result))).

Definition removeItem (this : IDBHelper) (id : Z) : Promise unit :=
  new_Promise (
    store <- tx this Readwrite ;;
    request <- delete store id ;;
    ret (on_request request (fun _ => tt))).

Definition clear (this : IDBHelper) : Promise unit :=
  new_Promise (
    store <- tx this Readwrite ;;
    request <- clear_store store ;;
    ret (on_request request (fun _ => tt))).

Definition hasItem (this : IDBHelper) (id : Z) : Promise bool :=
  new_Promise (
    store <- tx this Readonly ;;
    request <- get store id ;;
    ret (on_request request (fun result => truthy result))).

Definition count (this : IDBHelper) : Promise Z :=
  new_Promise (
    store <- tx this Readonly ;;
    request <- count_store store ;;
    ret (on_request request (fun result => result))).

Definition not_found : reason := RError "Item not found!"%string.

(** [{ ...existing, ...updates, id }] *)
Definition updatedData (existing : value) (updates : obj) (id : Z) : obj :=
  set_field ID (VNum id) (spread (spread [] (own_props existing)) updates).

Definition updateItem (this : IDBHelper) (id : Z) (updates : obj) : Promise unit :=
  await (getItem this id) (fun existing =>
    if negb (truthy existing) then rejected not_found
    else
      await (setItem this (updatedData existing updates id)) (fun _ =>
        resolved tt)).

Definition getByIndex (this : IDBHelper) (indexName : string) (v : value)
  : Promise value :=
  new_Promise (
    store <- tx this Readonly ;;
    ix <- index store indexName ;;
    request <- index_get ix v ;;
    ret (on_request request (fun result => result))).

Definition getItemsByFilter (this : IDBHelper) (filter : obj -> bool)
  : Promise (list obj) :=
  new_Promise (
    store <- tx this Readonly ;;
    request <- getAll store ;;
    ret (on_request request (fun result => List.filter filter result))).

Definition in_range (startId endId : Z) (item : obj) : bool :=
  js_ge (prop item ID) startId && js_le (prop item ID) endId.

Definition getItemsByRange (this : IDBHelper) (startId endId : Z)
  : Promise (list obj) :=
  new_Promise (
    store <- tx this Readonly ;;
    request <- getAll store ;;
    ret (on_request request (fun result => List.filter (in_range startId endId) result))).

(** [tx.oncomplete = () => resolve(); tx.onerror = () => reject(tx.error)];
    nothing listens to [abort]. *)
Definition on_tx_event (p : outcome unit) (ev : tx_event) : outcome unit :=
  match ev with
  | TxComplete => settle p (Resolved tt)
  | TxError (Some e) => settle p (Rejected (RDom e))
  | TxError None => settle p (Rejected RNull)
  | TxAbort => p
  end.

(** [items.forEach((item) => store.put(item))]: the requests placed, and
    the exception that stopped the loop, if one did. *)
Fixpoint forEach_put (items : list obj) : M (list tx_request * option DOMException) :=
  match items with
  | [] => ret ([], None)
  | item :: rest =>
      record_call (CPut item) ;;;
      match extract_key item with
      | KeyInvalid => ret ([], Some DataError)
      | _ =>
          placed <- forEach_put rest ;;
          ret (TxPut item :: fst placed, snd placed)
      end
  end.

Fixpoint forEach_delete (ids : list Z) : M (list tx_request) :=
  match ids with
  | [] => ret []
  | id :: rest =>
      record_call (CDelete id) ;;;
      placed <- forEach_delete rest ;;
      ret (TxDelete id :: placed)
  end.

(** The transaction runs whatever was placed in it, also when the executor
    threw before it could install its handlers. *)
Definition bulkInsert (this : IDBHelper) (items : list obj) : Promise unit :=
  new_Promise (
    match db this with
    | None => throw RTypeError
    | Some h =>
        _ <- transaction h Readwrite ;;
        placed <- forEach_put items ;;
        events <- run_transaction (fst placed) ;;
        match snd placed with
        | Some e => throw (RDom e)
        | None => ret (fold_left on_tx_event events Pending)
        end
    end).

Definition bulkDelete (this : IDBHelper) (ids : list Z) : Promise unit :=
  new_Promise (
    match db this with
    | None => throw RTypeError
    | Some h =>
        _ <- transaction h Readwrite ;;
        placed <- forEach_delete ids ;;
        events <- run_transaction placed ;;
        ret (fold_left on_tx_event events Pending)
    end).

Definition closeDB (this : IDBHelper) : IDBHelper :=
  match db this with
  | Some _ => mkHelper (version this) (Some (mkHandle true)) (opening this)
  | None => this
  end.

End Cached.

(** ** Clients and observations used in the statements *)

(** The caller awaits each [setItem] before issuing the next one. *)
Fixpoint setItems (setItem : obj -> Promise Z) (records : list obj) (w : world) : world :=
  match records with
  | [] => w
  | r :: rest => setItems setItem rest (snd (setItem r w))
  end.

(** The record carries [id] as its identity. *)
Definition has_id (id : Z) (o : obj) : bool :=
  match get_field ID o with
  | Some (VNum k) => k =? id
  | _ => false
  end.

Definition id_of (o : obj) : Z :=
  match get_field ID o with
  | Some (VNum k) => k
  | _ => 0
  end.

Definition keys (es : list (Z * obj)) : list Z := map fst es.

(** The data model's invariants of a collection: records are ordered by
    strictly ascending key, and each record's [id] is its key. *)
Record wf_store (s : IDBObjectStore) : Prop := mkWf {
  wf_sorted : StronglySorted Z.lt (keys (entries s));
  wf_ids : Forall (fun e => get_field ID (snd e) = Some (VNum (fst e))) (entries s)
}.

(** The engine has the database at version [v] with store [s], has made the
    calls [l] and will report no failure. *)
Definition world_of (v : Z) (s : IDBObjectStore) (l : list call) : world :=
  mkWorld (Some (mkDb v (Some s))) [] l.

(** The same world with the failures [fs] still to come. *)
Definition world_with (v : Z) (s : IDBObjectStore) (fs : list (option DOMException))
    (l : list call) : world :=
  mkWorld (Some (mkDb v (Some s))) fs l.

(** The open of [PerCall.openDB] at [version] goes through and finds or
    creates the store. *)
Definition openable (version : Z) (w : world) : Prop :=
  match database w with
  | None => True
  | Some d => dbversion d < version \/ (dbversion d = version /\ objectStore d <> None)
  end.

Definition store_or_empty (w : world) : IDBObjectStore :=
  match current_store w with
  | Some s => s
  | None => empty_store
  end.

(** [this.db] holds a connection that was not closed. *)
Definition is_open (this : Cached.IDBHelper) : Prop :=
  Cached.db this = Some (mkHandle false).

Definition map_outcome {A B} (f : A -> B) (o : outcome A) : outcome B :=
  match o with
  | Resolved a => Resolved (f a)
  | Rejected r => Rejected r
  | Pending => Pending
  end.

(** A world in which no database exists yet, and the engine's failures to
    come. *)
Definition fresh (fs : list (option DOMException)) : world := mkWorld None fs [].

(** [new IDBHelper(dbName, storeName)] followed by the task that answers
    the open request. *)
Definition opened : Cached.IDBHelper * world :=
  let (this, w) := Cached.constructor 1 (fresh []) in Cached.init_task this w.

Definition named (id : Z) (name : string) : obj :=
  [(ID, VNum id); ("name"%string, VStr name)].

(** A store holding records with the ids 1 to 5. *)
Definition five : IDBObjectStore :=
  mkStore [(1, named 1 "a"); (2, named 2 "b"); (3, named 3 "c");
           (4, named 4 "d"); (5, named 5 "e")] 6 [].

(** What [PerCall] needs of a world for its operations to go through. *)
Definition per_call_ready (this : PerCall.IDBHelper) (w : world) : Prop :=
  faults w = [] /\ openable (PerCall.version this) w /\ wf_store (store_or_empty w).

(** The store after the requests of a transaction, in their order. *)
Definition apply_requests (reqs : list tx_request) (s : IDBObjectStore) : IDBObjectStore :=
  fold_left (fun acc r => apply_request r acc) reqs s.

(** The store of the world, when there is one, satisfies the invariants. *)
Definition wf_world (w : world) : Prop :=
  match current_store w with
  | Some s => wf_store s
  | None => True
  end.

(** A computation that leaves the invariants in place. *)
Definition keeps {X} (f : world -> X * world) : Prop :=
  forall w, wf_world w -> wf_world (snd (f w)).

(** A computation that leaves the database as it found it. *)
Definition same_database {X} (f : world -> X * world) : Prop :=
  forall w, database (snd (f w)) = database w.

(** The key generator is ahead of every key in use. *)
Definition keygen_fresh (s : IDBObjectStore) : Prop :=
  Forall (fun k => k < keygen s) (keys (entries s)).

(** The caller awaits each [removeItem] before issuing the next one. *)
Fixpoint removeItems (removeItem : Z -> Promise unit) (ids : list Z) (w : world) : world :=
  match ids with
  | [] => w
  | id :: rest => removeItems removeItem rest (snd (removeItem id w))
  end.

(** The same as [setItems], keeping what each call settled with. *)
Fixpoint setItems_outcomes (setItem : obj -> Promise Z) (records : list obj) (w : world)
  : list (outcome Z) * world :=
  match records with
  | [] => ([], w)
  | r :: rest =>
      let first := setItem r w in
      let others := setItems_outcomes setItem rest (snd first) in
      (fst first :: fst others, snd others)
  end.

(** A call attempted on a closed connection: the transaction call is made
    and throws, and nothing else happens. *)
Definition refused (w : world) (mode : IDBTransactionMode) : world :=
  mkWorld (database w) (faults w) (log w ++ [CTransaction mode]).

(** The values the engine takes neither for a key nor for a missing one:
    [null], a boolean, an object. *)
Definition no_key (v : value) : bool :=
  match v with
  | VNull => true
  | VBool _ => true
  | VObj _ => true
  | _ => false
  end.

(** ** Objects *)

Lemma get_field_set_field_same (k : string) (v : value) (o : obj) :
  get_field k (set_field k v o) = Some v.
Proof.
  induction o as [|[k' v'] r IH]; simpl.
  - now rewrite String.eqb_refl.
  - destruct (String.eqb k k') eqn:E; simpl.
    + now rewrite String.eqb_refl.
    + now rewrite E.
Qed.

Lemma get_field_set_field_other (k k' : string) (v : value) (o : obj) :
  k <> k' -> get_field k' (set_field k v o) = get_field k' o.
Proof.
  intros Hne. induction o as [|[k0 v0] r IH]; simpl.
  - destruct (String.eqb k' k) eqn:E; [|reflexivity].
    apply String.eqb_eq in E. congruence.
  - destruct (String.eqb k k0) eqn:E; simpl.
    + apply String.eqb_eq in E. subst k0.
      destruct (String.eqb k' k) eqn:E'; [|reflexivity].
      apply String.eqb_eq in E'. congruence.
    + destruct (String.eqb k' k0); [reflexivity | exact IH].
Qed.

Lemma get_field_none_notin (k : string) (o : obj) :
  get_field k o = None <-> ~ In k (map fst o).
Proof.
  induction o as [|[k' v'] r IH]; simpl.
  - tauto.
  - destruct (String.eqb k k') eqn:E.
    + apply String.eqb_eq in E. subst. split; [discriminate | tauto].
    + apply String.eqb_neq in E. rewrite IH. split; [intros H [C|C]; congruence | tauto].
Qed.

Lemma set_field_keys (k : string) (v : value) (o : obj) (x : string) :
  In x (map fst (set_field k v o)) <-> x = k \/ In x (map fst o).
Proof.
  induction o as [|[k' v'] r IH]; simpl.
  - intuition auto.
  - destruct (String.eqb k k') eqn:E; simpl.
    + apply String.eqb_eq in E. subst. intuition auto.
    + rewrite IH. intuition auto.
Qed.

Lemma set_field_NoDup (k : string) (v : value) (o : obj) :
  NoDup (map fst o) -> NoDup (map fst (set_field k v o)).
Proof.
  induction o as [|[k' v'] r IH]; simpl; intros Hnd.
  - constructor; [simpl; tauto | constructor].
  - inversion Hnd as [|? ? Hnotin Hnd']; subst.
    destruct (String.eqb k k') eqn:E; simpl.
    + apply String.eqb_eq in E. subst. now constructor.
    + apply String.eqb_neq in E. constructor; [|now apply IH].
      rewrite set_field_keys. intros [C|C]; [congruence | contradiction].
Qed.

Lemma get_field_spread_absent (f : string) (src target : obj) :
  get_field f src = None ->
  get_field f (spread target src) = get_field f target.
Proof.
  unfold spread. revert target.
  induction src as [|[k v] r IH]; simpl; intros target Habs; [reflexivity|].
  destruct (String.eqb f k) eqn:E; [discriminate|].
  rewrite IH by exact Habs.
  apply get_field_set_field_other. apply String.eqb_neq in E. congruence.
Qed.

Lemma get_field_spread_present (f : string) (v : value) (src target : obj) :
  NoDup (map fst src) ->
  get_field f src = Some v ->
  get_field f (spread target src) = Some v.
Proof.
  unfold spread. revert target.
  induction src as [|[k v0] r IH]; simpl; intros target Hnd Hget; [discriminate|].
  inversion Hnd as [|? ? Hnotin Hnd']; subst.
  destruct (String.eqb f k) eqn:E.
  - apply String.eqb_eq in E. subst k. injection Hget as ->.
    change (get_field f (spread (set_field f v target) r) = Some v).
    rewrite get_field_spread_absent by now apply get_field_none_notin.
    apply get_field_set_field_same.
  - now apply IH.
Qed.

Lemma get_field_spread_nil (f : string) (o : obj) :
  NoDup (map fst o) -> get_field f (spread [] o) = get_field f o.
Proof.
  intros Hnd. destruct (get_field f o) as [v|] eqn:E.
  - now apply get_field_spread_present.
  - now rewrite get_field_spread_absent.
Qed.

Lemma spread_NoDup (src target : obj) :
  NoDup (map fst target) -> NoDup (map fst (spread target src)).
Proof.
  unfold spread. revert target.
  induction src as [|[k v] r IH]; simpl; intros target Hnd; [exact Hnd|].
  apply IH. now apply set_field_NoDup.
Qed.

(** ** The ordered record list *)

Lemma lookup_insert_same (k : Z) (o : obj) (es : list (Z * obj)) :
  lookup k (insert k o es) = Some o.
Proof.
  induction es as [|[k' o'] r IH]; simpl.
  - now rewrite Z.eqb_refl.
  - destruct (k <? k') eqn:E1; simpl; [now rewrite Z.eqb_refl|].
    destruct (k =? k') eqn:E2; simpl; [now rewrite Z.eqb_refl|].
    rewrite Z.eqb_sym, E2. exact IH.
Qed.

Lemma lookup_insert_other (k k' : Z) (o : obj) (es : list (Z * obj)) :
  k <> k' -> lookup k' (insert k o es) = lookup k' es.
Proof.
  intros Hne. induction es as [|[k0 o0] r IH]; simpl.
  - destruct (k =? k') eqn:E; [lia | reflexivity].
  - destruct (k <? k0) eqn:E1; simpl.
    + destruct (k =? k') eqn:E; [lia | reflexivity].
    + destruct (k =? k0) eqn:E2; simpl.
      * destruct (k =? k') eqn:E; [lia|].
        destruct (k0 =? k') eqn:E'; [lia | reflexivity].
      * destruct (k0 =? k'); [reflexivity | exact IH].
Qed.

Lemma lookup_remove_same (k : Z) (es : list (Z * obj)) :
  lookup k (remove k es) = None.
Proof.
  induction es as [|[k' o'] r IH]; simpl; [reflexivity|].
  destruct (k' =? k) eqn:E; simpl; [exact IH|].
  now rewrite E.
Qed.

Lemma lookup_remove_other (k k' : Z) (es : list (Z * obj)) :
  k <> k' -> lookup k' (remove k es) = lookup k' es.
Proof.
  intros Hne. induction es as [|[k0 o0] r IH]; simpl; [reflexivity|].
  destruct (k0 =? k) eqn:E; simpl.
  - destruct (k0 =? k') eqn:E'; [lia | exact IH].
  - destruct (k0 =? k'); [reflexivity | exact IH].
Qed.

Lemma remove_absent (k : Z) (es : list (Z * obj)) :
  lookup k es = None -> remove k es = es.
Proof.
  induction es as [|[k' o'] r IH]; simpl; [reflexivity|].
  destruct (k' =? k) eqn:E; simpl; [discriminate|].
  intros H. now rewrite (IH H).
Qed.

Lemma lookup_In (k : Z) (o : obj) (es : list (Z * obj)) :
  lookup k es = Some o -> In (k, o) es.
Proof.
  induction es as [|[k' o'] r IH]; simpl; [discriminate|].
  destruct (k' =? k) eqn:E.
  - intros [= ->]. apply Z.eqb_eq in E. subst. now left.
  - intros H. right. now apply IH.
Qed.

Lemma insert_keys (k : Z) (o : obj) (es : list (Z * obj)) (x : Z) :
  In x (keys (insert k o es)) <-> x = k \/ In x (keys es).
Proof.
  unfold keys. induction es as [|[k' o'] r IH]; simpl.
  - intuition auto.
  - destruct (k <? k') eqn:E1; simpl; [intuition auto|].
    destruct (k =? k') eqn:E2; simpl.
    + apply Z.eqb_eq in E2. subst. intuition auto.
    + rewrite IH. intuition auto.
Qed.

Lemma insert_sorted (k : Z) (o : obj) (es : list (Z * obj)) :
  StronglySorted Z.lt (keys es) -> StronglySorted Z.lt (keys (insert k o es)).
Proof.
  induction es as [|[k' o'] r IH]; simpl; intros Hs.
  - repeat constructor.
  - inversion Hs as [|? ? Hs' Hall]; subst.
    destruct (k <? k') eqn:E1; simpl.
    + apply Z.ltb_lt in E1. constructor; [exact Hs|].
      constructor; [exact E1|].
      eapply Forall_impl; [|exact Hall]. simpl. intros; lia.
    + destruct (k =? k') eqn:E2; simpl.
      * apply Z.eqb_eq in E2. subst. now constructor.
      * constructor; [now apply IH|].
        apply Forall_forall. intros x Hx.
        apply (insert_keys k o r x) in Hx. destruct Hx as [->|Hx].
        -- apply Z.ltb_ge in E1. apply Z.eqb_neq in E2. lia.
        -- rewrite Forall_forall in Hall. now apply Hall.
Qed.

Lemma remove_sorted (k : Z) (es : list (Z * obj)) :
  StronglySorted Z.lt (keys es) -> StronglySorted Z.lt (keys (remove k es)).
Proof.
  induction es as [|[k' o'] r IH]; simpl; intros Hs; [constructor|].
  inversion Hs as [|? ? Hs' Hall]; subst.
  destruct (k' =? k); simpl; [now apply IH|].
  constructor; [now apply IH|].
  apply Forall_forall. intros x Hx. rewrite Forall_forall in Hall. apply Hall.
  unfold keys, remove in *. apply in_map_iff in Hx. destruct Hx as [e [<- He]].
  apply filter_In in He. apply in_map. tauto.
Qed.

Lemma filter_key_absent (k : Z) (es : list (Z * obj)) :
  ~ In k (keys es) -> filter (fun e => fst e =? k) es = [].
Proof.
  induction es as [|[k' o'] r IH]; simpl; intros Hn; [reflexivity|].
  destruct (k' =? k) eqn:E.
  - apply Z.eqb_eq in E. tauto.
  - apply IH. tauto.
Qed.

(** In an ordered list the inserted record is the only one under its key. *)
Lemma filter_key_insert (k : Z) (o : obj) (es : list (Z * obj)) :
  StronglySorted Z.lt (keys es) ->
  filter (fun e => fst e =? k) (insert k o es) = [(k, o)].
Proof.
  induction es as [|[k' o'] r IH]; simpl; intros Hs.
  - now rewrite Z.eqb_refl.
  - inversion Hs as [|? ? Hs' Hall]; subst. rewrite Forall_forall in Hall.
    destruct (k <? k') eqn:E1; simpl.
    + apply Z.ltb_lt in E1. rewrite Z.eqb_refl.
      destruct (k' =? k) eqn:E; [lia|].
      rewrite filter_key_absent; [reflexivity|].
      intros Hin. apply Hall in Hin. lia.
    + destruct (k =? k') eqn:E2; simpl.
      * apply Z.eqb_eq in E2. subst. rewrite Z.eqb_refl.
        rewrite filter_key_absent; [reflexivity|].
        intros Hin. apply Hall in Hin. lia.
      * rewrite Z.eqb_sym, E2. now apply IH.
Qed.

Lemma filter_has_id (id : Z) (es : list (Z * obj)) :
  Forall (fun e => get_field ID (snd e) = Some (VNum (fst e))) es ->
  filter (has_id id) (map snd es) = map snd (filter (fun e => fst e =? id) es).
Proof.
  induction 1 as [|[k o] r Hk Hr IH]; simpl; [reflexivity|].
  simpl in Hk. unfold has_id at 1. rewrite Hk.
  destruct (k =? id); simpl; now rewrite IH.
Qed.

Lemma insert_Forall (P : Z * obj -> Prop) (k : Z) (o : obj) (es : list (Z * obj)) :
  P (k, o) -> Forall P es -> Forall P (insert k o es).
Proof.
  intros Hp. induction 1 as [|[k' o'] r Hk Hr IH]; simpl.
  - now constructor.
  - destruct (k <? k'); [now repeat constructor|].
    destruct (k =? k'); now constructor.
Qed.

Lemma remove_Forall (P : Z * obj -> Prop) (k : Z) (es : list (Z * obj)) :
  Forall P es -> Forall P (remove k es).
Proof.
  intros H. rewrite Forall_forall in *. intros e He.
  apply filter_In in He. apply H. tauto.
Qed.

(** ** The store's invariants are kept by the engine's primitives *)

Lemma extract_key_given (data : obj) (k : Z) :
  extract_key data = KeyGiven k <-> get_field ID data = Some (VNum k).
Proof.
  unfold extract_key. destruct (get_field ID data) as [[| |b|n|s|f]|]; split; congruence.
Qed.

Lemma wf_empty : wf_store empty_store.
Proof. split; simpl; constructor. Qed.

Lemma store_put_wf (data : obj) (s : IDBObjectStore) :
  wf_store s -> wf_store (snd (store_put data s)).
Proof.
  intros [Hs Hi]. unfold store_put.
  destruct (extract_key data) eqn:E; simpl; split; simpl;
    try (now apply insert_sorted);
    apply insert_Forall; simpl; auto using get_field_set_field_same.
  now apply extract_key_given.
Qed.

Lemma store_delete_wf (k : Z) (s : IDBObjectStore) :
  wf_store s -> wf_store (store_delete k s).
Proof.
  intros [Hs Hi]. split; simpl; auto using remove_sorted, remove_Forall.
Qed.

Lemma store_clear_wf (s : IDBObjectStore) : wf_store (store_clear s).
Proof. split; simpl; constructor. Qed.

Lemma store_put_key (data : obj) (s : IDBObjectStore) (k : Z) :
  get_field ID data = Some (VNum k) ->
  store_put data s =
    (k, mkStore (insert k data (entries s)) (Z.max (keygen s) (k + 1)) (indexes s)).
Proof.
  intros H. unfold store_put. apply extract_key_given in H. now rewrite H.
Qed.

(** ** What each operation does when the engine reports no failure *)

Ltac run_promise :=
  cbv beta iota zeta delta
    [new_Promise await bind ret throw transaction put get getAll delete
     clear_store count_store index index_get read_request write_request
     record_call next_fault the_store set_store current_store on_request
     world_of resolved rejected];
  simpl.

Section CachedQuiet.

Variable this : Cached.IDBHelper.
Hypothesis Hopen : is_open this.
Variables (v : Z) (s : IDBObjectStore) (l : list call).

Lemma Cached_setItem_quiet (data : obj) :
  extract_key data <> KeyInvalid ->
  Cached.setItem this data (world_of v s l) =
    (Resolved (fst (store_put data s)),
     world_of v (snd (store_put data s)) (l ++ [CTransaction Readwrite; CPut data])).
Proof.
  intros Hk. unfold Cached.setItem, Cached.tx. rewrite Hopen. run_promise.
  destruct (extract_key data); [| |congruence]; simpl; now rewrite <- app_assoc.
Qed.

Lemma Cached_getItem_quiet (id : Z) :
  Cached.getItem this id (world_of v s l) =
    (Resolved (store_get id s), world_of v s (l ++ [CTransaction Readonly; CGet id])).
Proof.
  unfold Cached.getItem, Cached.tx. rewrite Hopen. run_promise.
  now rewrite <- app_assoc.
Qed.

Lemma Cached_hasItem_quiet (id : Z) :
  Cached.hasItem this id (world_of v s l) =
    (Resolved (truthy (store_get id s)),
     world_of v s (l ++ [CTransaction Readonly; CGet id])).
Proof.
  unfold Cached.hasItem, Cached.tx. rewrite Hopen. run_promise.
  now rewrite <- app_assoc.
Qed.

Lemma Cached_getAllItems_quiet :
  Cached.getAllItems this (world_of v s l) =
    (Resolved (store_getAll s), world_of v s (l ++ [CTransaction Readonly; CGetAll])).
Proof.
  unfold Cached.getAllItems, Cached.tx. rewrite Hopen. run_promise.
  now rewrite <- app_assoc.
Qed.

Lemma Cached_removeItem_quiet (id : Z) :
  Cached.removeItem this id (world_of v s l) =
    (Resolved tt, world_of v (store_delete id s) (l ++ [CTransaction Readwrite; CDelete id])).
Proof.
  unfold Cached.removeItem, Cached.tx. rewrite Hopen. run_promise.
  now rewrite <- app_assoc.
Qed.

Lemma Cached_getItemsByRange_quiet (startId endId : Z) :
  Cached.getItemsByRange this startId endId (world_of v s l) =
    (Resolved (filter (Cached.in_range startId endId) (store_getAll s)),
     world_of v s (l ++ [CTransaction Readonly; CGetAll])).
Proof.
  unfold Cached.getItemsByRange, Cached.tx. rewrite Hopen. run_promise.
  now rewrite <- app_assoc.
Qed.

End CachedQuiet.

Section PerCallQuiet.

Variable this : PerCall.IDBHelper.
Variable w : world.
Hypothesis Hquiet : faults w = [].
Hypothesis Hopenable : openable (PerCall.version this) w.

Lemma PerCall_openDB_quiet :
  PerCall.openDB this w =
    (Resolved (mkHandle false),
     world_of (PerCall.version this) (store_or_empty w)
       (log w ++ [COpen (PerCall.version this)])).
Proof.
  unfold PerCall.openDB, process_open, store_or_empty, openable in *. run_promise.
  rewrite Hquiet. simpl.
  destruct (database w) as [[dv [st|]]|]; simpl in *; try reflexivity.
  - destruct (dv <? PerCall.version this) eqn:E1; [reflexivity|].
    destruct (dv =? PerCall.version this) eqn:E2.
    + apply Z.eqb_eq in E2. now subst.
    + apply Z.ltb_ge in E1. apply Z.eqb_neq in E2. lia.
  - destruct (dv <? PerCall.version this) eqn:E1; [reflexivity|].
    apply Z.ltb_ge in E1. destruct Hopenable as [?|[? ?]]; [lia | congruence].
Qed.

Lemma PerCall_setItem_quiet (data : obj) :
  extract_key data <> KeyInvalid ->
  PerCall.setItem this data w =
    (Resolved (fst (store_put data (store_or_empty w))),
     world_of (PerCall.version this) (snd (store_put data (store_or_empty w)))
       (log w ++ [COpen (PerCall.version this); CTransaction Readwrite; CPut data])).
Proof.
  intros Hk. unfold PerCall.setItem, await. rewrite PerCall_openDB_quiet. run_promise.
  destruct (extract_key data); [| |congruence]; simpl;
    now rewrite <- !app_assoc.
Qed.

Lemma PerCall_getItem_quiet (id : Z) :
  PerCall.getItem this id w =
    (Resolved (store_get id (store_or_empty w)),
     world_of (PerCall.version this) (store_or_empty w)
       (log w ++ [COpen (PerCall.version this); CTransaction Readonly; CGet id])).
Proof.
  unfold PerCall.getItem, await. rewrite PerCall_openDB_quiet. run_promise.
  now rewrite <- !app_assoc.
Qed.

Lemma PerCall_getAllItems_quiet :
  PerCall.getAllItems this w =
    (Resolved (store_getAll (store_or_empty w)),
     world_of (PerCall.version this) (store_or_empty w)
       (log w ++ [COpen (PerCall.version this); CTransaction Readonly; CGetAll])).
Proof.
  unfold PerCall.getAllItems, await. rewrite PerCall_openDB_quiet. run_promise.
  now rewrite <- !app_assoc.
Qed.

Lemma PerCall_removeItem_quiet (id : Z) :
  PerCall.removeItem this id w =
    (Resolved tt,
     world_of (PerCall.version this) (store_delete id (store_or_empty w))
       (log w ++ [COpen (PerCall.version this); CTransaction Readwrite; CDelete id])).
Proof.
  unfold PerCall.removeItem, await. rewrite PerCall_openDB_quiet. run_promise.
  now rewrite <- !app_assoc.
Qed.

End PerCallQuiet.

Lemma openable_world_of (v : Z) (s : IDBObjectStore) (l : list call) :
  openable v (world_of v s l).
Proof. simpl. right. split; [reflexivity | discriminate]. Qed.

(** ** Existence check against point lookup *)

(** [hasItem] issues the request of [getItem] and differs in its success
    handler only. *)
Lemma hasItem_as_getItem (this : Cached.IDBHelper) (id : Z) (w : world) :
  Cached.hasItem this id w =
    (map_outcome truthy (fst (Cached.getItem this id w)), snd (Cached.getItem this id w)).
Proof.
  unfold Cached.hasItem, Cached.getItem, Cached.tx.
  destruct (Cached.db this) as [[[|]]|]; run_promise; try reflexivity.
  destruct (database w) as [[dv [st|]]|]; simpl; try reflexivity.
  destruct (faults w) as [|[e|] fs]; reflexivity.
Qed.

(** [getItem] resolves with a record of the store or with [undefined]. *)
Lemma getItem_resolves_record (this : Cached.IDBHelper) (id : Z) (w : world) (x : value) :
  fst (Cached.getItem this id w) = Resolved x ->
  x = VUndef \/ exists o, x = VObj o.
Proof.
  unfold Cached.getItem, Cached.tx.
  destruct (Cached.db this) as [[[|]]|]; run_promise; try discriminate.
  destruct (database w) as [[dv [st|]]|]; simpl; try discriminate.
  destruct (faults w) as [|[e|] fs]; simpl; try discriminate;
    intros [= <-]; unfold store_get; destruct (lookup id (entries st)); eauto.
Qed.

(** C9: [hasItem(id)] resolves to [true] exactly when [getItem(id)] resolves
    to a record, and to [false] exactly when [getItem(id)] resolves to
    [undefined], whatever the state of the connection and of the engine. *)
Theorem hasItem_iff_getItem_record (this : Cached.IDBHelper) (id : Z) (w : world) :
  (fst (Cached.hasItem this id w) = Resolved true <->
   exists o, fst (Cached.getItem this id w) = Resolved (VObj o)) /\
  (fst (Cached.hasItem this id w) = Resolved false <->
   fst (Cached.getItem this id w) = Resolved VUndef).
Proof.
  rewrite hasItem_as_getItem. simpl.
  pose proof (getItem_resolves_record this id w) as Hrec.
  destruct (fst (Cached.getItem this id w)) as [x|r|]; simpl.
  - destruct (Hrec x eq_refl) as [->|[o ->]]; simpl; split; split;
      try discriminate; try reflexivity; eauto.
    intros [o [=]].
  - split; split; try discriminate. intros [o [=]].
  - split; split; try discriminate. intros [o [=]].
Qed.

(** ** Range queries *)

Lemma in_range_id_of (startId endId : Z) (o : obj) (k : Z) :
  get_field ID o = Some (VNum k) ->
  Cached.in_range startId endId o = (startId <=? id_of o) && (id_of o <=? endId).
Proof.
  intros H. unfold Cached.in_range, id_of, prop, js_ge, js_le. now rewrite H.
Qed.

Lemma id_of_getAll (s : IDBObjectStore) :
  wf_store s -> map id_of (store_getAll s) = keys (entries s).
Proof.
  intros [_ Hi]. unfold store_getAll, keys. rewrite map_map.
  apply map_ext_in. intros e He. rewrite Forall_forall in Hi.
  unfold id_of. now rewrite (Hi e He).
Qed.

Lemma filter_map_sorted (p : obj -> bool) (os : list obj) :
  StronglySorted Z.lt (map id_of os) ->
  StronglySorted Z.lt (map id_of (filter p os)).
Proof.
  induction os as [|o r IH]; simpl; intros Hs; [constructor|].
  inversion Hs as [|? ? Hs' Hall]; subst.
  destruct (p o); simpl; [|now apply IH].
  constructor; [now apply IH|].
  rewrite Forall_forall in *. intros x Hx. apply Hall.
  apply in_map_iff in Hx. destruct Hx as [y [<- Hy]].
  apply filter_In in Hy. apply in_map. tauto.
Qed.

(** C7: on a collection that satisfies the data model's invariants,
    [getItemsByRange(startId, endId)] resolves with exactly the stored
    records whose id lies between the two bounds, both included, in the
    order of the store, which is ascending in the id. *)
Theorem getItemsByRange_inclusive
    (this : Cached.IDBHelper) (v : Z) (s : IDBObjectStore) (l : list call)
    (startId endId : Z) :
  is_open this ->
  wf_store s ->
  exists result,
    fst (Cached.getItemsByRange this startId endId (world_of v s l)) = Resolved result /\
    result =
      filter (fun r => (startId <=? id_of r) && (id_of r <=? endId)) (store_getAll s) /\
    (forall r, In r result <->
               In r (store_getAll s) /\ startId <= id_of r <= endId) /\
    StronglySorted Z.lt (map id_of result).
Proof.
  intros Hopen Hwf. rewrite (Cached_getItemsByRange_quiet this Hopen). simpl.
  assert (Heq : filter (Cached.in_range startId endId) (store_getAll s) =
                filter (fun r => (startId <=? id_of r) && (id_of r <=? endId))
                       (store_getAll s)).
  { apply filter_ext_in. intros o Ho. unfold store_getAll in Ho.
    apply in_map_iff in Ho. destruct Ho as [e [<- He]].
    destruct Hwf as [_ Hi]. rewrite Forall_forall in Hi.
    exact (in_range_id_of startId endId _ _ (Hi e He)). }
  eexists. split; [reflexivity|]. rewrite Heq. split; [reflexivity|]. split.
  - intros r. rewrite filter_In, andb_true_iff, !Z.leb_le. tauto.
  - apply filter_map_sorted. rewrite id_of_getAll by exact Hwf. apply Hwf.
Qed.

(** With ids 1 to 5 in the store, the range 2 to 4 yields the records 2, 3
    and 4. *)
Lemma getItemsByRange_inclusive_witness :
  exists result,
    fst (Cached.getItemsByRange (fst opened) 2 4 (world_of 1 five [])) = Resolved result /\
    result = filter (fun r => (2 <=? id_of r) && (id_of r <=? 4)) (store_getAll five) /\
    (forall r, In r result <-> In r (store_getAll five) /\ 2 <= id_of r <= 4) /\
    StronglySorted Z.lt (map id_of result).
Proof.
  apply (getItemsByRange_inclusive (fst opened) 1 five [] 2 4).
  - reflexivity.
  - split; simpl.
    + repeat (constructor; [|repeat (constructor; try lia)]). constructor.
    + repeat constructor.
Defined.

Example getItemsByRange_2_4 :
  fst (Cached.getItemsByRange (fst opened) 2 4 (world_of 1 five [])) =
  Resolved [named 2 "b"; named 3 "c"; named 4 "d"].
Proof. reflexivity. Qed.

(** ** Upserts under one id *)

Lemma given_key_valid (data : obj) (k : Z) :
  get_field ID data = Some (VNum k) -> extract_key data <> KeyInvalid.
Proof. intros H. apply extract_key_given in H. congruence. Qed.

(** After a put under [id] the collection lists one record with that id,
    the one that was put. *)
Lemma getAll_after_put (id : Z) (data : obj) (s : IDBObjectStore) :
  wf_store s ->
  get_field ID data = Some (VNum id) ->
  filter (has_id id) (store_getAll (snd (store_put data s))) = [data].
Proof.
  intros Hwf Hid.
  pose proof (store_put_wf data s Hwf) as [Hs' Hi'].
  unfold store_getAll. rewrite (filter_has_id id _ Hi').
  rewrite (store_put_key data s id Hid). simpl.
  rewrite filter_key_insert by apply Hwf. reflexivity.
Qed.

Lemma Cached_setItems_quiet (this : Cached.IDBHelper) (v : Z) (records : list obj) :
  is_open this ->
  Forall (fun r => extract_key r <> KeyInvalid) records ->
  forall (s : IDBObjectStore) (l : list call),
    wf_store s ->
    exists s' l',
      setItems (Cached.setItem this) records (world_of v s l) = world_of v s' l' /\
      wf_store s'.
Proof.
  intros Hopen. induction 1 as [|r rest Hr Hrest IH]; intros s l Hwf; simpl.
  - eauto.
  - rewrite (Cached_setItem_quiet this Hopen v s l r Hr). simpl.
    apply IH. now apply store_put_wf.
Qed.

Lemma PerCall_setItems_quiet (this : PerCall.IDBHelper) (records : list obj) :
  Forall (fun r => extract_key r <> KeyInvalid) records ->
  forall w, per_call_ready this w ->
            per_call_ready this (setItems (PerCall.setItem this) records w).
Proof.
  induction 1 as [|r rest Hr Hrest IH]; intros w Hw; simpl; [exact Hw|].
  destruct Hw as (Hq & Ho & Hwf).
  rewrite (PerCall_setItem_quiet this w Hq Ho r Hr). simpl.
  apply IH. split; [reflexivity|]. split; [apply openable_world_of|].
  now apply store_put_wf.
Qed.

(** C3: after a sequence of [setItem] calls whose records all carry the
    same id, each awaited before the next, [getAllItems] resolves with a
    list holding exactly one record of that id, the last one put.  This holds
    for the variant with a cached connection and for the variant that opens
    the database in every call, on any collection satisfying the data model's
    invariants and an engine reporting no failure. *)
Theorem setItem_same_id_keeps_last
    (id : Z) (records : list obj) (last : obj) :
  Forall (fun r => get_field ID r = Some (VNum id)) (records ++ [last]) ->
  (forall (this : Cached.IDBHelper) (v : Z) (s : IDBObjectStore) (l : list call),
      is_open this ->
      wf_store s ->
      exists all,
        fst (Cached.getAllItems this
               (setItems (Cached.setItem this) (records ++ [last]) (world_of v s l)))
          = Resolved all /\
        filter (has_id id) all = [last]) /\
  (forall (this : PerCall.IDBHelper) (w : world),
      faults w = [] ->
      openable (PerCall.version this) w ->
      wf_store (store_or_empty w) ->
      exists all,
        fst (PerCall.getAllItems this
               (setItems (PerCall.setItem this) (records ++ [last]) w))
          = Resolved all /\
        filter (has_id id) all = [last]).
Proof.
  intros Hall. apply Forall_app in Hall. destruct Hall as [Hrecs Hlast].
  inversion Hlast as [|? ? Hlast' _]; subst.
  assert (Hvalid : Forall (fun r => extract_key r <> KeyInvalid) records).
  { eapply Forall_impl; [|exact Hrecs]. intros r. apply given_key_valid. }
  assert (Hsplit : forall f w, setItems f (records ++ [last]) w =
                               snd (f last (setItems f records w))).
  { intros f. induction records as [|r rest IH]; intros w; simpl; [reflexivity|].
    inversion Hrecs; inversion Hvalid; subst. now apply IH. }
  split.
  - intros this v s l Hopen Hwf. rewrite Hsplit.
    destruct (Cached_setItems_quiet this v records Hopen Hvalid s l Hwf) as (s' & l' & -> & Hwf').
    rewrite (Cached_setItem_quiet this Hopen v s' l' last (given_key_valid _ _ Hlast')). simpl.
    rewrite (Cached_getAllItems_quiet this Hopen). simpl.
    eexists. split; [reflexivity|]. now apply getAll_after_put.
  - intros this w Hq Ho Hwf. rewrite Hsplit.
    destruct (PerCall_setItems_quiet this records Hvalid w) as (Hq' & Ho' & Hwf');
      [unfold per_call_ready; auto|].
    rewrite (PerCall_setItem_quiet this _ Hq' Ho' last (given_key_valid _ _ Hlast')). simpl.
    rewrite PerCall_getAllItems_quiet;
      [|reflexivity | apply openable_world_of]. simpl.
    eexists. split; [reflexivity|]. now apply getAll_after_put.
Qed.

Lemma setItem_same_id_keeps_last_witness :
  (exists all,
      fst (Cached.getAllItems (fst opened)
             (setItems (Cached.setItem (fst opened))
                ([named 3 "x"; named 3 "y"] ++ [named 3 "z"]) (world_of 1 five [])))
        = Resolved all /\
      filter (has_id 3) all = [named 3 "z"]) /\
  (exists all,
      fst (PerCall.getAllItems (PerCall.mkHelper 1)
             (setItems (PerCall.setItem (PerCall.mkHelper 1))
                ([named 3 "x"; named 3 "y"] ++ [named 3 "z"]) (fresh [])))
        = Resolved all /\
      filter (has_id 3) all = [named 3 "z"]).
Proof.
  assert (H : Forall (fun r => get_field ID r = Some (VNum 3))
                ([named 3 "x"; named 3 "y"] ++ [named 3 "z"]))
    by (repeat constructor).
  destruct (setItem_same_id_keeps_last 3 [named 3 "x"; named 3 "y"] (named 3 "z") H) as [Hc Hp].
  split.
  - apply Hc; [reflexivity|]. split; simpl.
    + repeat (constructor; [|repeat (constructor; try lia)]). constructor.
    + repeat constructor.
  - apply Hp; [reflexivity | exact I |]. split; simpl; constructor.
Defined.

(** ** Deleting *)

Lemma store_delete_absent (k : Z) (s : IDBObjectStore) :
  lookup k (entries s) = None -> store_delete k s = s.
Proof.
  intros H. unfold store_delete. rewrite (remove_absent k _ H). now destruct s.
Qed.

Lemma store_get_after_delete (k : Z) (s : IDBObjectStore) :
  store_get k (store_delete k s) = VUndef.
Proof. unfold store_get, store_delete. simpl. now rewrite lookup_remove_same. Qed.

Lemma store_delete_twice (k : Z) (s : IDBObjectStore) :
  store_delete k (store_delete k s) = store_delete k s.
Proof. apply store_delete_absent. simpl. apply lookup_remove_same. Qed.

Lemma PerCall_removeItem_world_of (this : PerCall.IDBHelper) (s : IDBObjectStore)
    (l : list call) (id : Z) :
  PerCall.removeItem this id (world_of (PerCall.version this) s l) =
    (Resolved tt,
     world_of (PerCall.version this) (store_delete id s)
       (l ++ [COpen (PerCall.version this); CTransaction Readwrite; CDelete id])).
Proof.
  apply (PerCall_removeItem_quiet this (world_of (PerCall.version this) s l) eq_refl
           (openable_world_of _ _ _)).
Qed.

Lemma PerCall_getItem_world_of (this : PerCall.IDBHelper) (s : IDBObjectStore)
    (l : list call) (id : Z) :
  PerCall.getItem this id (world_of (PerCall.version this) s l) =
    (Resolved (store_get id s),
     world_of (PerCall.version this) s
       (l ++ [COpen (PerCall.version this); CTransaction Readonly; CGet id])).
Proof.
  apply (PerCall_getItem_quiet this (world_of (PerCall.version this) s l) eq_refl
           (openable_world_of _ _ _)).
Qed.

(** C8: with an open connection and an engine reporting no failure,
    [removeItem(x)] resolves whether or not a record is stored under [x],
    and leaves the store as it was when none is; issued twice in a row, both
    calls resolve, the second changes nothing, and after either of them the
    existence check answers [false] (in the variant without [hasItem],
    [getItem] answers [undefined]). *)
Theorem removeItem_idempotent (x : Z) :
  (forall (this : Cached.IDBHelper) (v : Z) (s : IDBObjectStore) (l : list call),
      is_open this ->
      let first := Cached.removeItem this x (world_of v s l) in
      let second := Cached.removeItem this x (snd first) in
      fst first = Resolved tt /\
      fst second = Resolved tt /\
      fst (Cached.hasItem this x (snd first)) = Resolved false /\
      fst (Cached.hasItem this x (snd second)) = Resolved false /\
      current_store (snd second) = current_store (snd first) /\
      (lookup x (entries s) = None -> current_store (snd first) = Some s)) /\
  (forall (this : PerCall.IDBHelper) (w : world),
      faults w = [] ->
      openable (PerCall.version this) w ->
      let first := PerCall.removeItem this x w in
      let second := PerCall.removeItem this x (snd first) in
      fst first = Resolved tt /\
      fst second = Resolved tt /\
      fst (PerCall.getItem this x (snd first)) = Resolved VUndef /\
      fst (PerCall.getItem this x (snd second)) = Resolved VUndef /\
      current_store (snd second) = current_store (snd first) /\
      (lookup x (entries (store_or_empty w)) = None ->
       current_store (snd first) = Some (store_or_empty w))).
Proof.
  split.
  - intros this v s l Hopen first second. subst first second.
    rewrite !(Cached_removeItem_quiet this Hopen). simpl.
    rewrite !(Cached_removeItem_quiet this Hopen). simpl.
    rewrite !(Cached_hasItem_quiet this Hopen). simpl.
    rewrite store_delete_twice, store_get_after_delete. simpl.
    repeat split. intros H. now rewrite store_delete_absent.
  - intros this w Hq Ho first second. subst first second.
    rewrite !(PerCall_removeItem_quiet this w Hq Ho). simpl.
    rewrite !PerCall_removeItem_world_of. simpl.
    rewrite !PerCall_getItem_world_of. simpl.
    rewrite store_delete_twice, store_get_after_delete.
    repeat split. intros H. now rewrite store_delete_absent.
Qed.

Lemma removeItem_idempotent_witness :
  (let first := Cached.removeItem (fst opened) 9 (world_of 1 five []) in
   let second := Cached.removeItem (fst opened) 9 (snd first) in
   fst first = Resolved tt /\
   fst second = Resolved tt /\
   fst (Cached.hasItem (fst opened) 9 (snd first)) = Resolved false /\
   fst (Cached.hasItem (fst opened) 9 (snd second)) = Resolved false /\
   current_store (snd second) = current_store (snd first) /\
   (lookup 9 (entries five) = None -> current_store (snd first) = Some five)) /\
  (let this := PerCall.mkHelper 1 in
   let first := PerCall.removeItem this 9 (fresh []) in
   let second := PerCall.removeItem this 9 (snd first) in
   fst first = Resolved tt /\
   fst second = Resolved tt /\
   fst (PerCall.getItem this 9 (snd first)) = Resolved VUndef /\
   fst (PerCall.getItem this 9 (snd second)) = Resolved VUndef /\
   current_store (snd second) = current_store (snd first) /\
   (lookup 9 (entries (store_or_empty (fresh []))) = None ->
    current_store (snd first) = Some (store_or_empty (fresh [])))).
Proof.
  split.
  - apply (proj1 (removeItem_idempotent 9) (fst opened) 1 five []).
    reflexivity.
  - apply (proj2 (removeItem_idempotent 9) (PerCall.mkHelper 1) (fresh [])).
    + reflexivity.
    + exact I.
Defined.

(** ** Partial update *)

Lemma updatedData_id (existing : value) (updates : obj) (id : Z) :
  get_field ID (Cached.updatedData existing updates id) = Some (VNum id).
Proof. apply get_field_set_field_same. Qed.

Lemma updatedData_kept (existing updates : obj) (id : Z) (f : string) :
  NoDup (map fst existing) ->
  f <> ID ->
  get_field f updates = None ->
  get_field f (Cached.updatedData (VObj existing) updates id) = get_field f existing.
Proof.
  intros Hnd Hf Habs. unfold Cached.updatedData. simpl.
  rewrite get_field_set_field_other by congruence.
  rewrite get_field_spread_absent by exact Habs.
  now apply get_field_spread_nil.
Qed.

Lemma updatedData_patched (existing updates : obj) (id : Z) (f : string) (x : value) :
  NoDup (map fst updates) ->
  f <> ID ->
  get_field f updates = Some x ->
  get_field f (Cached.updatedData (VObj existing) updates id) = Some x.
Proof.
  intros Hnd Hf Hget. unfold Cached.updatedData. simpl.
  rewrite get_field_set_field_other by congruence.
  now apply get_field_spread_present.
Qed.

(** C2: with an open connection and an engine reporting no failure,
    [updateItem(id, updates)] rejects with the error "Item not found!" when
    no record is stored under [id]; otherwise it resolves, and the record
    then stored under [id] is [{ ...existing, ...updates, id }]: its [id] is
    the given one whatever [updates] says, a property that [updates] does not
    name keeps the value it had, a property it names takes the value given
    there, and the records under other ids are untouched. *)
Theorem updateItem_merges
    (this : Cached.IDBHelper) (v : Z) (s : IDBObjectStore) (l : list call)
    (id : Z) (updates : obj) :
  is_open this ->
  (lookup id (entries s) = None ->
   fst (Cached.updateItem this id updates (world_of v s l)) = Rejected Cached.not_found) /\
  (forall existing,
      lookup id (entries s) = Some existing ->
      NoDup (map fst existing) ->
      let merged := Cached.updatedData (VObj existing) updates id in
      exists s',
        Cached.updateItem this id updates (world_of v s l) =
          (Resolved tt,
           world_of v s'
             (l ++ [CTransaction Readonly; CGet id; CTransaction Readwrite; CPut merged])) /\
        lookup id (entries s') = Some merged /\
        get_field ID merged = Some (VNum id) /\
        (forall f, f <> ID -> get_field f updates = None ->
                   get_field f merged = get_field f existing) /\
        (forall f x, f <> ID -> NoDup (map fst updates) -> get_field f updates = Some x ->
                     get_field f merged = Some x) /\
        (forall k, k <> id -> lookup k (entries s') = lookup k (entries s))).
Proof.
  intros Hopen. split.
  - intros Habs. unfold Cached.updateItem, await.
    rewrite (Cached_getItem_quiet this Hopen). unfold store_get. rewrite Habs.
    reflexivity.
  - intros existing Hex Hnd merged.
    assert (Hid : get_field ID merged = Some (VNum id)) by apply updatedData_id.
    exists (snd (store_put merged s)). split; [|split; [|split; [|split; [|split]]]].
    + unfold Cached.updateItem, await.
      rewrite (Cached_getItem_quiet this Hopen). unfold store_get. rewrite Hex. simpl.
      fold merged.
      rewrite (Cached_setItem_quiet this Hopen _ _ _ merged (given_key_valid _ _ Hid)).
      unfold resolved. now rewrite <- app_assoc.
    + rewrite (store_put_key merged s id Hid). simpl. apply lookup_insert_same.
    + exact Hid.
    + intros f Hf Habs. now apply updatedData_kept.
    + intros f x Hf Hndu Hget. now apply updatedData_patched.
    + intros k Hk. rewrite (store_put_key merged s id Hid). simpl.
      apply lookup_insert_other. congruence.
Qed.

(** The record [{id: 1, name: "A", age: 1}], patched with [{age: 2}], and a
    patch for the id 999, which the store does not hold. *)
Lemma updateItem_merges_witness :
  let existing := [(ID, VNum 1); ("name"%string, VStr "A"); ("age"%string, VNum 1)] in
  let updates := [("age"%string, VNum 2)] in
  let s := mkStore [(1, existing)] 2 [] in
  let merged := Cached.updatedData (VObj existing) updates 1 in
  fst (Cached.updateItem (fst opened) 999 updates (world_of 1 s [])) =
    Rejected Cached.not_found /\
  exists s',
    Cached.updateItem (fst opened) 1 updates (world_of 1 s []) =
      (Resolved tt,
       world_of 1 s'
         ([] ++ [CTransaction Readonly; CGet 1; CTransaction Readwrite; CPut merged])) /\
    lookup 1 (entries s') = Some merged /\
    get_field ID merged = Some (VNum 1) /\
    (forall f, f <> ID -> get_field f updates = None ->
               get_field f merged = get_field f existing) /\
    (forall f x, f <> ID -> NoDup (map fst updates) -> get_field f updates = Some x ->
                 get_field f merged = Some x) /\
    (forall k, k <> 1 -> lookup k (entries s') = lookup k (entries s)).
Proof.
  intros existing updates s merged. split.
  - apply (updateItem_merges (fst opened) 1 s [] 999 updates); reflexivity.
  - apply (updateItem_merges (fst opened) 1 s [] 1 updates); [reflexivity | reflexivity |].
    repeat constructor; simpl; intuition discriminate.
Defined.

Example updateItem_age :
  let existing := [(ID, VNum 1); ("name"%string, VStr "A"); ("age"%string, VNum 1)] in
  let s := mkStore [(1, existing)] 2 [] in
  let this := fst opened in
  fst (Cached.getItem this 1
         (snd (Cached.updateItem this 1 [("age"%string, VNum 2)] (world_of 1 s [])))) =
    Resolved (VObj [(ID, VNum 1); ("name"%string, VStr "A"); ("age"%string, VNum 2)]) /\
  fst (Cached.updateItem this 999 [("x"%string, VNum 1)] (world_of 1 s [])) =
    Rejected Cached.not_found.
Proof. split; reflexivity. Qed.

(** [setItem] never rejects with an [Error] object of the facade's own. *)
Lemma setItem_not_RError (this : Cached.IDBHelper) (data : obj) (w : world) (msg : string) :
  fst (Cached.setItem this data w) <> Rejected (RError msg).
Proof.
  unfold Cached.setItem, Cached.tx.
  destruct (Cached.db this) as [[[|]]|]; run_promise; try discriminate.
  destruct (database w) as [[dv [st|]]|]; simpl; try discriminate.
  destruct (extract_key data); simpl; try discriminate;
    destruct (faults w) as [|[e|] [|[e'|] fs]]; simpl; discriminate.
Qed.

Lemma getItem_reads_only (this : Cached.IDBHelper) (id : Z) (w : world) (x : value) :
  fst (Cached.getItem this id w) = Resolved x ->
  database (snd (Cached.getItem this id w)) = database w /\
  log (snd (Cached.getItem this id w)) = log w ++ [CTransaction Readonly; CGet id].
Proof.
  unfold Cached.getItem, Cached.tx.
  destruct (Cached.db this) as [[[|]]|]; run_promise; try discriminate.
  destruct (database w) as [[dv [st|]]|]; simpl; try discriminate.
  destruct (faults w) as [|[e|] fs]; simpl; try discriminate;
    intros _; now rewrite <- app_assoc.
Qed.

(** C10: whenever [updateItem] rejects with its "Item not found!" error,
    the database is what it was before the call and the only calls made on
    the engine are the read-only transaction and its [get]: no write was
    issued. *)
Theorem updateItem_not_found_writes_nothing
    (this : Cached.IDBHelper) (id : Z) (updates : obj) (w : world) :
  fst (Cached.updateItem this id updates w) = Rejected Cached.not_found ->
  database (snd (Cached.updateItem this id updates w)) = database w /\
  log (snd (Cached.updateItem this id updates w)) =
    log w ++ [CTransaction Readonly; CGet id].
Proof.
  unfold Cached.updateItem, await.
  pose proof (getItem_reads_only this id w) as Hread.
  destruct (Cached.getItem this id w) as [[existing|r|] w1] eqn:Hget; simpl in *.
  - destruct (truthy existing); simpl.
    + pose proof (setItem_not_RError this (Cached.updatedData existing updates id) w1
                    "Item not found!"%string) as Hset.
      destruct (Cached.setItem this (Cached.updatedData existing updates id) w1)
        as [[k|r|] w2]; simpl in *; unfold resolved; simpl; try discriminate.
      intros H. injection H as ->. exfalso. now apply Hset.
    + intros _. now apply (Hread existing).
  - intros H. injection H as ->. exfalso.
    revert Hget. unfold Cached.getItem, Cached.tx.
    destruct (Cached.db this) as [[[|]]|]; run_promise; try discriminate.
    destruct (database w) as [[dv [st|]]|]; simpl; try discriminate.
    destruct (faults w) as [|[e|] fs]; simpl; discriminate.
  - discriminate.
Qed.

Lemma updateItem_not_found_writes_nothing_witness :
  database (snd (Cached.updateItem (fst opened) 999 [("x"%string, VNum 1)]
                   (world_of 1 five []))) = database (world_of 1 five []) /\
  log (snd (Cached.updateItem (fst opened) 999 [("x"%string, VNum 1)]
              (world_of 1 five []))) =
    log (world_of 1 five []) ++ [CTransaction Readonly; CGet 999].
Proof.
  apply (updateItem_not_found_writes_nothing (fst opened) 999
           [("x"%string, VNum 1)] (world_of 1 five [])).
  reflexivity.
Defined.

(** ** Lookup through an index *)

Lemma store_index_get_cases (keyPath : string) (k : key) (s : IDBObjectStore) :
  (exists o, store_index_get keyPath k s = VObj o /\
             In o (store_getAll s) /\ index_matches keyPath k o = true) \/
  (store_index_get keyPath k s = VUndef /\
   forall o, In o (store_getAll s) -> index_matches keyPath k o = false).
Proof.
  unfold store_index_get, store_getAll.
  destruct (find (fun e => index_matches keyPath k (snd e)) (entries s)) as [e|] eqn:E.
  - left. apply find_some in E. destruct E as [Hin Hm].
    exists (snd e). split; [reflexivity|]. split; [now apply in_map | exact Hm].
  - right. split; [reflexivity|]. intros o Ho.
    apply in_map_iff in Ho. destruct Ho as [e [<- He]].
    exact (find_none _ _ E e He).
Qed.

(** C6 (amended): with an open connection, [getByIndex(indexName, value)]
    rejects with the engine's NotFoundError for every value when the store
    declares no index of that name, whatever the engine would have answered.
    For a declared index the value decides: when it is a key (a number or a
    string) and the engine reports no failure, the call resolves with a
    stored record whose indexed property holds the value, or with
    [undefined] when no stored record does; when it is no key ([null],
    [undefined], a boolean, an object), [index.get] throws and the call
    rejects with the engine's DataError, whatever the engine would have
    answered. *)
Theorem getByIndex_declared_or_not
    (this : Cached.IDBHelper) (s : IDBObjectStore) (indexName : string) (x : value) :
  is_open this ->
  (index_keyPath indexName (indexes s) = None ->
   forall w, current_store w = Some s ->
             fst (Cached.getByIndex this indexName x w) = Rejected (RDom NotFoundError)) /\
  (forall keyPath k v l,
      index_keyPath indexName (indexes s) = Some keyPath ->
      to_key x = Some k ->
      fst (Cached.getByIndex this indexName x (world_of v s l)) =
        Resolved (store_index_get keyPath k s) /\
      ((exists o, store_index_get keyPath k s = VObj o /\
                  In o (store_getAll s) /\ index_matches keyPath k o = true) \/
       (store_index_get keyPath k s = VUndef /\
        forall o, In o (store_getAll s) -> index_matches keyPath k o = false))) /\
  (forall keyPath,
      index_keyPath indexName (indexes s) = Some keyPath ->
      to_key x = None ->
      forall w, current_store w = Some s ->
                fst (Cached.getByIndex this indexName x w) = Rejected (RDom DataError)).
Proof.
  intros Hopen. split; [|split].
  - intros Hno w Hs. unfold Cached.getByIndex, Cached.tx. rewrite Hopen.
    unfold current_store in Hs. run_promise.
    destruct (database w) as [[dv [st|]]|]; simpl in *; try discriminate.
    injection Hs as ->. now rewrite Hno.
  - intros keyPath k v l Hix Hk. split; [|apply store_index_get_cases].
    unfold Cached.getByIndex, Cached.tx. rewrite Hopen. run_promise.
    now rewrite Hix, Hk.
  - intros keyPath Hix Hk w Hs. unfold Cached.getByIndex, Cached.tx. rewrite Hopen.
    unfold current_store in Hs. run_promise.
    destruct (database w) as [[dv [st|]]|]; simpl in *; try discriminate.
    injection Hs as ->. now rewrite Hix, Hk.
Qed.

(** A store with an index [by_name] on the property [name]. *)
Lemma getByIndex_declared_or_not_witness :
  let s := mkStore (entries five) 6 [("by_name"%string, "name"%string)] in
  fst (Cached.getByIndex (fst opened) "by_age"%string (VNum 3) (world_of 1 s [])) =
    Rejected (RDom NotFoundError) /\
  (fst (Cached.getByIndex (fst opened) "by_name"%string (VStr "c") (world_of 1 s [])) =
     Resolved (store_index_get "name"%string (KStr "c") s) /\
   ((exists o, store_index_get "name"%string (KStr "c") s = VObj o /\
               In o (store_getAll s) /\ index_matches "name"%string (KStr "c") o = true) \/
    (store_index_get "name"%string (KStr "c") s = VUndef /\
     forall o, In o (store_getAll s) ->
               index_matches "name"%string (KStr "c") o = false))) /\
  fst (Cached.getByIndex (fst opened) "by_name"%string (VBool true)
         (world_with 1 s [Some UnknownError] [])) = Rejected (RDom DataError).
Proof.
  intros s. split; [|split].
  - apply (proj1 (getByIndex_declared_or_not (fst opened) s "by_age"%string (VNum 3)
                    eq_refl)); reflexivity.
  - apply (proj1 (proj2 (getByIndex_declared_or_not (fst opened) s "by_name"%string
                           (VStr "c") eq_refl))); reflexivity.
  - apply (proj2 (proj2 (getByIndex_declared_or_not (fst opened) s "by_name"%string
                           (VBool true) eq_refl)) "name"%string); reflexivity.
Defined.

(** The claim as it was worded, that a lookup through a declared index
    resolves with the matching record or with [undefined], fails at the
    value [null]: with the index [by_name] declared and no failure of the
    engine, the call rejects with DataError and resolves with nothing. *)
Lemma getByIndex_null_on_declared_index :
  let s := mkStore (entries five) 6 [("by_name"%string, "name"%string)] in
  let call := Cached.getByIndex (fst opened) "by_name"%string VNull (world_of 1 s []) in
  index_keyPath "by_name"%string (indexes s) = Some "name"%string /\
  fst call = Rejected (RDom DataError) /\
  ~ (exists r, fst call = Resolved r).
Proof.
  simpl. split; [reflexivity|]. split; [reflexivity|].
  intros [r Hr]. discriminate Hr.
Qed.

Example getByIndex_by_name :
  let s := mkStore (entries five) 6 [("by_name"%string, "name"%string)] in
  fst (Cached.getByIndex (fst opened) "by_name"%string (VStr "c") (world_of 1 s [])) =
    Resolved (VObj (named 3 "c")) /\
  fst (Cached.getByIndex (fst opened) "by_name"%string (VStr "zz") (world_of 1 s [])) =
    Resolved VUndef.
Proof. split; reflexivity. Qed.

(** The store the facade creates declares no index, so that every lookup
    through an index on it is rejected. *)
Lemma getByIndex_on_created_store (indexName : string) (x : value) :
  fst (Cached.getByIndex (fst opened) indexName x (snd opened)) =
    Rejected (RDom NotFoundError).
Proof. reflexivity. Qed.

(** ** Operations and the open request *)

(** Without a connection in [this.db], [tx] throws before any call reaches
    the engine. *)
Lemma tx_without_connection (this : Cached.IDBHelper) (mode : IDBTransactionMode) (w : world) :
  Cached.db this = None -> Cached.tx this mode w = (inr RTypeError, w).
Proof. intros H. unfold Cached.tx. now rewrite H. Qed.

(** C1 (as the code has it): an operation issued on a [Cached] facade after
    its constructor returned and before the task that answers the open
    request has run finds [this.db] unset; it rejects with a TypeError and
    reaches the engine with no call at all.  It neither waits for the open in
    flight nor opens on its own. *)
Theorem operation_before_open_is_rejected
    (version : Z) (w : world) (data : obj) (id : Z) (items : list obj) (ids : list Z)
    (indexName : string) (x : value) (filter : obj -> bool) (startId endId : Z) :
  let this := fst (Cached.constructor version w) in
  let w1 := snd (Cached.constructor version w) in
  Cached.db this = None /\
  log w1 = log w ++ [COpen version] /\
  Cached.setItem this data w1 = (Rejected RTypeError, w1) /\
  Cached.getItem this id w1 = (Rejected RTypeError, w1) /\
  Cached.getAllItems this w1 = (Rejected RTypeError, w1) /\
  Cached.removeItem this id w1 = (Rejected RTypeError, w1) /\
  Cached.clear this w1 = (Rejected RTypeError, w1) /\
  Cached.hasItem this id w1 = (Rejected RTypeError, w1) /\
  Cached.count this w1 = (Rejected RTypeError, w1) /\
  Cached.updateItem this id data w1 = (Rejected RTypeError, w1) /\
  Cached.getByIndex this indexName x w1 = (Rejected RTypeError, w1) /\
  Cached.getItemsByFilter this filter w1 = (Rejected RTypeError, w1) /\
  Cached.getItemsByRange this startId endId w1 = (Rejected RTypeError, w1) /\
  Cached.bulkInsert this items w1 = (Rejected RTypeError, w1) /\
  Cached.bulkDelete this ids w1 = (Rejected RTypeError, w1).
Proof.
  simpl. repeat split.
Qed.

(** An open request that fails leaves [this.db] unset for good: [onerror]
    only writes to the console, and every later operation is rejected the
    same way. *)
Lemma failed_open_leaves_no_connection
    (version : Z) (e : DOMException) (fs : list (option DOMException)) (data : obj) :
  let this := fst (Cached.constructor version (fresh (Some e :: fs))) in
  let w1 := snd (Cached.constructor version (fresh (Some e :: fs))) in
  let this' := fst (Cached.init_task this w1) in
  let w2 := snd (Cached.init_task this w1) in
  Cached.db this' = None /\
  Cached.setItem this' data w2 = (Rejected RTypeError, w2).
Proof.
  simpl. split; reflexivity.
Qed.

(** Once the task has run and the open succeeded, the same operation goes
    through. *)
Example operation_after_open :
  fst (Cached.setItem (fst opened) (named 1 "Test Item") (snd opened)) = Resolved 1 /\
  fst (Cached.setItem (fst (Cached.constructor 1 (fresh [])))
         (named 1 "Test Item") (snd (Cached.constructor 1 (fresh [])))) =
    Rejected RTypeError.
Proof. split; reflexivity. Qed.

Lemma PerCall_openDB_outcome (this : PerCall.IDBHelper) (w : world) :
  log (snd (PerCall.openDB this w)) = log w ++ [COpen (PerCall.version this)] /\
  (forall h, fst (PerCall.openDB this w) = Resolved h -> h = mkHandle false).
Proof.
  unfold PerCall.openDB, process_open. run_promise.
  destruct (faults w) as [|[e|] fs]; simpl;
    try (split; [reflexivity | discriminate]);
    (destruct (database w) as [[dv st]|]; simpl;
     [destruct (dv <? PerCall.version this); simpl;
      [|destruct (dv =? PerCall.version this); simpl]|]);
    (split; [reflexivity | try discriminate; now intros h [= <-]]).
Qed.

Lemma put_transaction_log (h : IDBDatabase) (data : obj) (w : world) :
  exists rest,
    log (snd (new_Promise
                (store <- transaction h Readwrite ;;
                 request <- put store data ;;
                 ret (on_request request (fun result => result))) w)) =
    log w ++ rest.
Proof.
  run_promise. destruct h as [[|]]; simpl; [eexists; reflexivity|].
  destruct (database w) as [[dv [st|]]|]; simpl; try (eexists; reflexivity).
  destruct (extract_key data); simpl;
    try (rewrite <- app_assoc; eexists; reflexivity);
    destruct (faults w) as [|[e|] [|[e'|] fs]]; simpl;
    rewrite <- app_assoc; eexists; reflexivity.
Qed.

(** The other variant opens the database first in every operation, and
    only builds its transaction on the connection this open resolved
    with. *)
Lemma PerCall_opens_first (this : PerCall.IDBHelper) (data : obj) (w : world) :
  exists rest,
    log (snd (PerCall.setItem this data w)) =
      log w ++ COpen (PerCall.version this) :: rest /\
    (rest <> [] -> fst (PerCall.openDB this w) = Resolved (mkHandle false)).
Proof.
  unfold PerCall.setItem, await.
  destruct (PerCall_openDB_outcome this w) as [Hlog Hres].
  destruct (PerCall.openDB this w) as [[h|r|] w1]; simpl in *.
  - destruct (put_transaction_log h data w1) as [rest Hrest].
    exists rest. rewrite Hrest, Hlog, <- app_assoc. split; [reflexivity|].
    intros _. now rewrite (Hres h eq_refl).
  - exists []. split; [exact Hlog | congruence].
  - exists []. split; [exact Hlog | congruence].
Qed.

(** ** Transactions shared by several requests *)

Lemma forEach_put_valid (items : list obj) :
  Forall (fun r => extract_key r <> KeyInvalid) items ->
  forall w,
    Cached.forEach_put items w =
      (inl (map TxPut items, None),
       mkWorld (database w) (faults w) (log w ++ map CPut items)).
Proof.
  induction 1 as [|item rest Hitem Hrest IH]; intros w; simpl.
  - unfold ret. rewrite app_nil_r. now destruct w.
  - unfold bind at 1. unfold record_call at 1.
    destruct (extract_key item); [| |congruence];
      unfold bind; rewrite IH; simpl; unfold ret; now rewrite <- app_assoc.
Qed.

Lemma forEach_delete_log (ids : list Z) (w : world) :
  Cached.forEach_delete ids w =
    (inl (map TxDelete ids),
     mkWorld (database w) (faults w) (log w ++ map CDelete ids)).
Proof.
  revert w. induction ids as [|id rest IH]; intros w; simpl.
  - unfold ret. rewrite app_nil_r. now destruct w.
  - unfold bind at 1. unfold record_call at 1.
    unfold bind. rewrite IH. simpl. unfold ret. now rewrite <- app_assoc.
Qed.

(** Every request goes through: nothing is fired yet, and the writes wait
    for the commit. *)
Lemma run_requests_pass (reqs : list tx_request) :
  forall s d fs l,
    run_requests reqs s (mkWorld d (repeat None (List.length reqs) ++ fs) l) =
      (inl (Some (apply_requests reqs s), []), mkWorld d fs l).
Proof.
  induction reqs as [|r rest IH]; intros s d fs l; simpl; [reflexivity|].
  unfold bind, next_fault. simpl. apply IH.
Qed.

Lemma run_requests_quiet (reqs : list tx_request) :
  forall s d l,
    run_requests reqs s (mkWorld d [] l) =
      (inl (Some (apply_requests reqs s), []), mkWorld d [] l).
Proof.
  induction reqs as [|r rest IH]; intros s d l; simpl; [reflexivity|].
  unfold bind, next_fault. simpl. apply IH.
Qed.

(** The request at position [n] fails: the first event the transaction sees
    is the [error] bubbled from it, with the transaction's own error unset. *)
Lemma run_requests_fail (reqs : list tx_request) :
  forall n s d e fs l,
    (n < List.length reqs)%nat ->
    exists events,
      run_requests reqs s (mkWorld d (repeat None n ++ Some e :: fs) l) =
        (inl (None, TxError None :: events), mkWorld d fs l).
Proof.
  induction reqs as [|r rest IH]; intros n s d e fs l Hn; simpl in Hn; [lia|].
  destruct n as [|n]; simpl.
  - unfold bind, next_fault, ret. simpl. eauto.
  - unfold bind, next_fault. simpl. apply IH. lia.
Qed.

Lemma settled_stays (events : list tx_event) (r : reason) :
  fold_left Cached.on_tx_event events (Rejected r) = Rejected r.
Proof.
  induction events as [|[|[e|]|] rest IH]; simpl; auto.
Qed.

Section Bulk.

Variable this : Cached.IDBHelper.
Hypothesis Hopen : is_open this.
Variables (v : Z) (s : IDBObjectStore).

Lemma bulkInsert_runs (items : list obj) (fs : list (option DOMException)) (l : list call) :
  Forall (fun r => extract_key r <> KeyInvalid) items ->
  Cached.bulkInsert this items (world_with v s fs l) =
    match run_transaction (map TxPut items)
            (world_with v s fs (l ++ CTransaction Readwrite :: map CPut items)) with
    | (inl events, w') => (fold_left Cached.on_tx_event events Pending, w')
    | (inr r, w') => (Rejected r, w')
    end.
Proof.
  intros Hvalid. unfold Cached.bulkInsert, world_with. rewrite Hopen.
  cbv beta iota zeta delta
    [new_Promise bind transaction record_call the_store current_store ret throw].
  simpl. rewrite (forEach_put_valid items Hvalid). simpl.
  rewrite <- app_assoc. simpl.
  destruct (run_transaction (map TxPut items) _) as [[events|r] w']; reflexivity.
Qed.

Lemma bulkDelete_runs (ids : list Z) (fs : list (option DOMException)) (l : list call) :
  Cached.bulkDelete this ids (world_with v s fs l) =
    match run_transaction (map TxDelete ids)
            (world_with v s fs (l ++ CTransaction Readwrite :: map CDelete ids)) with
    | (inl events, w') => (fold_left Cached.on_tx_event events Pending, w')
    | (inr r, w') => (Rejected r, w')
    end.
Proof.
  unfold Cached.bulkDelete, world_with. rewrite Hopen.
  cbv beta iota zeta delta
    [new_Promise bind transaction record_call the_store current_store ret throw].
  simpl. rewrite forEach_delete_log. simpl.
  rewrite <- app_assoc. simpl.
  destruct (run_transaction (map TxDelete ids) _) as [[events|r] w']; reflexivity.
Qed.

(** A transaction whose requests all went through and whose commit failed
    fires [abort] and nothing else. *)
Lemma run_transaction_commit_fails
    (reqs : list tx_request) (e : DOMException) (fs : list (option DOMException))
    (l : list call) :
  run_transaction reqs (world_with v s (repeat None (List.length reqs) ++ Some e :: fs) l) =
    (inl [TxAbort], world_with v s fs l).
Proof.
  unfold run_transaction, world_with. unfold bind at 1. unfold the_store at 1. simpl.
  unfold bind at 1. rewrite run_requests_pass. simpl.
  reflexivity.
Qed.

Lemma run_transaction_request_fails
    (reqs : list tx_request) (n : nat) (e : DOMException)
    (fs : list (option DOMException)) (l : list call) :
  (n < List.length reqs)%nat ->
  exists events,
    run_transaction reqs (world_with v s (repeat None n ++ Some e :: fs) l) =
      (inl (TxError None :: events), world_with v s fs l).
Proof.
  intros Hn. unfold run_transaction, world_with. unfold bind at 1. unfold the_store at 1. simpl.
  destruct (run_requests_fail reqs n s (Some (mkDb v (Some s))) e fs l Hn) as [events Hev].
  exists events. unfold bind at 1. now rewrite Hev.
Qed.

Lemma run_transaction_quiet (reqs : list tx_request) (l : list call) :
  run_transaction reqs (world_with v s [] l) =
    (inl [TxComplete], world_of v (apply_requests reqs s) l).
Proof.
  unfold run_transaction, world_with. unfold bind at 1. unfold the_store at 1. simpl.
  unfold bind at 1. rewrite run_requests_quiet. simpl.
  reflexivity.
Qed.

(** With no failure anywhere both bulk operations resolve, having placed
    one read-write transaction and one request per element, and the store
    holds the result of all the requests. *)
Lemma bulk_quiet (items : list obj) (ids : list Z) (l : list call) :
  Forall (fun r => extract_key r <> KeyInvalid) items ->
  Cached.bulkInsert this items (world_of v s l) =
    (Resolved tt,
     world_of v (apply_requests (map TxPut items) s)
       (l ++ CTransaction Readwrite :: map CPut items)) /\
  Cached.bulkDelete this ids (world_of v s l) =
    (Resolved tt,
     world_of v (apply_requests (map TxDelete ids) s)
       (l ++ CTransaction Readwrite :: map CDelete ids)).
Proof.
  intros Hvalid. split.
  - change (world_of v s l) with (world_with v s [] l).
    rewrite (bulkInsert_runs items [] l Hvalid), run_transaction_quiet. reflexivity.
  - change (world_of v s l) with (world_with v s [] l).
    rewrite bulkDelete_runs, run_transaction_quiet. reflexivity.
Qed.

End Bulk.

(** C4 (as the code has it): when every request of a bulk operation went
    through and the engine then fails to commit the transaction, the
    transaction fires [abort] alone; the promise of [bulkInsert], and
    likewise of [bulkDelete], listens to [complete] and [error] only and is
    left pending for ever: the call does not reject although its transaction
    aborted.  None of the writes is kept. *)
Theorem bulk_commit_abort_never_settles
    (this : Cached.IDBHelper) (v : Z) (s : IDBObjectStore) (l : list call)
    (items : list obj) (ids : list Z) (e : DOMException)
    (fs : list (option DOMException)) :
  is_open this ->
  Forall (fun r => extract_key r <> KeyInvalid) items ->
  Cached.bulkInsert this items
      (world_with v s (repeat None (List.length items) ++ Some e :: fs) l) =
    (Pending, world_with v s fs (l ++ CTransaction Readwrite :: map CPut items)) /\
  Cached.bulkDelete this ids
      (world_with v s (repeat None (List.length ids) ++ Some e :: fs) l) =
    (Pending, world_with v s fs (l ++ CTransaction Readwrite :: map CDelete ids)).
Proof.
  intros Hopen Hvalid. split.
  - rewrite (bulkInsert_runs this Hopen v s items _ l Hvalid).
    rewrite <- (length_map TxPut items).
    now rewrite run_transaction_commit_fails.
  - rewrite (bulkDelete_runs this Hopen v s ids _ l).
    rewrite <- (length_map TxDelete ids).
    now rewrite run_transaction_commit_fails.
Qed.

(** [bulkInsert([{id: 10, ..}, {id: 11, ..}])] with a commit that fails for
    lack of space. *)
Lemma bulk_commit_abort_never_settles_witness :
  Cached.bulkInsert (fst opened) [named 10 "j"; named 11 "k"]
      (world_with 1 five [None; None; Some QuotaExceededError] []) =
    (Pending,
     world_with 1 five []
       [CTransaction Readwrite; CPut (named 10 "j"); CPut (named 11 "k")]) /\
  Cached.bulkDelete (fst opened) [1; 2]
      (world_with 1 five [None; None; Some QuotaExceededError] []) =
    (Pending, world_with 1 five [] [CTransaction Readwrite; CDelete 1; CDelete 2]).
Proof.
  apply (bulk_commit_abort_never_settles (fst opened) 1 five []
           [named 10 "j"; named 11 "k"] [1; 2] QuotaExceededError []).
  - reflexivity.
  - repeat constructor; discriminate.
Defined.

(** C5 (as the code has it): when a request of a bulk operation fails with
    the engine's error [e], the promise of [bulkInsert], and likewise of
    [bulkDelete], is rejected with what the transaction's [error] attribute
    holds while the bubbled event is handled, which is [null], not [e]; the
    store is left as it was. *)
Theorem bulk_request_failure_rejects_with_null
    (this : Cached.IDBHelper) (v : Z) (s : IDBObjectStore) (l : list call)
    (items : list obj) (ids : list Z) (n m : nat) (e : DOMException)
    (fs : list (option DOMException)) :
  is_open this ->
  Forall (fun r => extract_key r <> KeyInvalid) items ->
  (n < List.length items)%nat ->
  (m < List.length ids)%nat ->
  Cached.bulkInsert this items (world_with v s (repeat None n ++ Some e :: fs) l) =
    (Rejected RNull, world_with v s fs (l ++ CTransaction Readwrite :: map CPut items)) /\
  Cached.bulkDelete this ids (world_with v s (repeat None m ++ Some e :: fs) l) =
    (Rejected RNull, world_with v s fs (l ++ CTransaction Readwrite :: map CDelete ids)).
Proof.
  intros Hopen Hvalid Hn Hm. split.
  - rewrite (bulkInsert_runs this Hopen v s items _ l Hvalid).
    rewrite <- (length_map TxPut items) in Hn.
    destruct (run_transaction_request_fails v s (map TxPut items) n e fs
                (l ++ CTransaction Readwrite :: map CPut items) Hn) as [events ->].
    simpl. now rewrite settled_stays.
  - rewrite (bulkDelete_runs this Hopen v s ids _ l).
    rewrite <- (length_map TxDelete ids) in Hm.
    destruct (run_transaction_request_fails v s (map TxDelete ids) m e fs
                (l ++ CTransaction Readwrite :: map CDelete ids) Hm) as [events ->].
    simpl. now rewrite settled_stays.
Qed.

(** The second of two requests fails with UnknownError. *)
Lemma bulk_request_failure_rejects_with_null_witness :
  Cached.bulkInsert (fst opened) [named 10 "j"; named 11 "k"]
      (world_with 1 five (repeat None 1 ++ [Some UnknownError]) []) =
    (Rejected RNull,
     world_with 1 five []
       ([] ++ CTransaction Readwrite :: map CPut [named 10 "j"; named 11 "k"])) /\
  Cached.bulkDelete (fst opened) [1; 2]
      (world_with 1 five (repeat None 1 ++ [Some UnknownError]) []) =
    (Rejected RNull,
     world_with 1 five [] ([] ++ CTransaction Readwrite :: map CDelete [1; 2])).
Proof.
  apply (bulk_request_failure_rejects_with_null (fst opened) 1 five []
           [named 10 "j"; named 11 "k"] [1; 2] 1 1 UnknownError []).
  - reflexivity.
  - repeat constructor; discriminate.
  - simpl. lia.
  - simpl. lia.
Defined.

(** ** Failures of a single request *)

(** X23: in the operations of the cached variant built on one request
    ([updateItem] included, for its first request), the request's failure
    rejects the promise with the engine's error itself; the calls made are
    the transaction and that one request, nothing is tried again, and the
    store is left as it was. *)
Lemma request_failure_rejects_with_its_error
    (this : Cached.IDBHelper) (v : Z) (s : IDBObjectStore) (l : list call)
    (e : DOMException) (fs : list (option DOMException)) (data : obj) (id : Z) :
  is_open this ->
  extract_key data <> KeyInvalid ->
  let w := world_with v s (Some e :: fs) l in
  Cached.setItem this data w =
    (Rejected (RDom e), world_with v s fs (l ++ [CTransaction Readwrite; CPut data])) /\
  Cached.getItem this id w =
    (Rejected (RDom e), world_with v s fs (l ++ [CTransaction Readonly; CGet id])) /\
  Cached.getAllItems this w =
    (Rejected (RDom e), world_with v s fs (l ++ [CTransaction Readonly; CGetAll])) /\
  Cached.removeItem this id w =
    (Rejected (RDom e), world_with v s fs (l ++ [CTransaction Readwrite; CDelete id])) /\
  Cached.clear this w =
    (Rejected (RDom e), world_with v s fs (l ++ [CTransaction Readwrite; CClear])) /\
  Cached.hasItem this id w =
    (Rejected (RDom e), world_with v s fs (l ++ [CTransaction Readonly; CGet id])) /\
  Cached.count this w =
    (Rejected (RDom e), world_with v s fs (l ++ [CTransaction Readonly; CCount])) /\
  Cached.updateItem this id data w =
    (Rejected (RDom e), world_with v s fs (l ++ [CTransaction Readonly; CGet id])).
Proof.
  intros Hopen Hk w. subst w.
  unfold Cached.updateItem, Cached.setItem, Cached.getItem, Cached.getAllItems,
    Cached.removeItem, Cached.clear, Cached.hasItem, Cached.count, Cached.tx, world_with.
  rewrite Hopen. run_promise.
  repeat split; try (now rewrite <- app_assoc).
  destruct (extract_key data); [| |congruence]; simpl; now rewrite <- app_assoc.
Qed.

(** ** What a resolved bulk insert leaves in the store *)

Lemma store_put_keeps_keys (data : obj) (s : IDBObjectStore) (k : Z) :
  lookup k (entries s) <> None ->
  lookup k (entries (snd (store_put data s))) <> None.
Proof.
  intros H. unfold store_put.
  destruct (extract_key data) as [k'| |]; simpl.
  - destruct (Z.eq_dec k' k) as [->|Hne];
      [rewrite lookup_insert_same; discriminate | now rewrite lookup_insert_other].
  - destruct (Z.eq_dec (keygen s) k) as [<-|Hne];
      [rewrite lookup_insert_same; discriminate | now rewrite lookup_insert_other].
  - destruct (Z.eq_dec (keygen s) k) as [<-|Hne];
      [rewrite lookup_insert_same; discriminate | now rewrite lookup_insert_other].
Qed.

Lemma apply_puts_keep_keys (items : list obj) :
  forall (s : IDBObjectStore) (k : Z),
    lookup k (entries s) <> None ->
    lookup k (entries (apply_requests (map TxPut items) s)) <> None.
Proof.
  induction items as [|item rest IH]; intros s k H; simpl; [exact H|].
  apply IH. now apply store_put_keeps_keys.
Qed.

(** Every id put by the transaction is in the store it commits. *)
Lemma apply_puts_retrievable (items : list obj) :
  forall (s : IDBObjectStore) (item : obj) (k : Z),
    In item items ->
    get_field ID item = Some (VNum k) ->
    store_get k (apply_requests (map TxPut items) s) <> VUndef.
Proof.
  induction items as [|first rest IH]; intros s item k Hin Hid; simpl in *; [contradiction|].
  destruct Hin as [->|Hin].
  - assert (H : lookup k (entries (apply_requests (map TxPut rest)
                                     (snd (store_put item s)))) <> None).
    { apply apply_puts_keep_keys. rewrite (store_put_key item s k Hid). simpl.
      rewrite lookup_insert_same. discriminate. }
    unfold store_get.
    destruct (lookup k (entries (apply_requests (map TxPut rest) (snd (store_put item s)))));
      [discriminate | contradiction].
  - now apply (IH _ item).
Qed.

Lemma apply_requests_wf (reqs : list tx_request) :
  forall s, wf_store s -> wf_store (apply_requests reqs s).
Proof.
  induction reqs as [|[data|k] rest IH]; intros s Hwf; simpl; [exact Hwf| |];
    apply IH; simpl; auto using store_put_wf, store_delete_wf.
Qed.

(** The store of a database the facade has just created satisfies the
    invariants, and the store with the ids 1 to 5 is what five [setItem]
    calls make of it. *)
Example five_by_setItem :
  current_store (snd opened) = Some empty_store /\
  current_store
    (setItems (Cached.setItem (fst opened))
       [named 3 "c"; named 1 "a"; named 5 "e"; named 2 "b"; named 4 "d"] (snd opened))
    = Some five.
Proof. split; reflexivity. Qed.

(** ** The invariants of the collection hold in every reachable world *)

Lemma keeps_ret {A} (a : A) : keeps (ret a).
Proof. intros w H. exact H. Qed.

Lemma keeps_throw {A} (r : reason) : keeps (@throw A r).
Proof. intros w H. exact H. Qed.

Lemma keeps_resolved {A} (a : A) : keeps (resolved a).
Proof. intros w H. exact H. Qed.

Lemma keeps_rejected {A} (r : reason) : keeps (@rejected A r).
Proof. intros w H. exact H. Qed.

Lemma keeps_record_call (c : call) : keeps (record_call c).
Proof. intros w H. exact H. Qed.

Lemma keeps_next_fault : keeps next_fault.
Proof. intros w H. unfold next_fault. destruct (faults w); exact H. Qed.

Lemma keeps_the_store : keeps the_store.
Proof. intros w H. unfold the_store. destruct (current_store w); exact H. Qed.

Lemma keeps_bind {A B} (m : M A) (k : A -> M B) :
  keeps m -> (forall a, keeps (k a)) -> keeps (bind m k).
Proof.
  intros Hm Hk w Hw. unfold bind. specialize (Hm w Hw).
  destruct (m w) as [[a|r] w']; simpl in *; [now apply Hk | exact Hm].
Qed.

Lemma keeps_new_Promise {A} (executor : M (outcome A)) :
  keeps executor -> keeps (new_Promise executor).
Proof.
  intros He w Hw. unfold new_Promise. specialize (He w Hw).
  destruct (executor w) as [[o|r] w']; exact He.
Qed.

Lemma keeps_await {A B} (p : Promise A) (k : A -> Promise B) :
  keeps p -> (forall a, keeps (k a)) -> keeps (await p k).
Proof.
  intros Hp Hk w Hw. unfold await. specialize (Hp w Hw).
  destruct (p w) as [[a|r|] w']; simpl in *; [now apply Hk | exact Hp | exact Hp].
Qed.

Lemma keeps_set_store (s : IDBObjectStore) : wf_store s -> keeps (set_store s).
Proof.
  intros Hs w Hw. unfold set_store, wf_world, current_store in *.
  destruct (database w) eqn:E; simpl; [exact Hs | now rewrite E].
Qed.

Lemma keeps_read_request {A} (f : IDBObjectStore -> A) : keeps (read_request f).
Proof.
  unfold read_request. apply keeps_bind; [apply keeps_next_fault|].
  intros [e|]; [apply keeps_ret|].
  apply keeps_bind; [apply keeps_the_store | intros; apply keeps_ret].
Qed.

Lemma keeps_write_request {A} (mode : IDBTransactionMode)
    (f : IDBObjectStore -> A * IDBObjectStore) :
  (forall s, wf_store s -> wf_store (snd (f s))) -> keeps (write_request mode f).
Proof.
  intros Hf w Hw. unfold write_request. destruct mode; [exact Hw|].
  unfold bind, the_store. unfold wf_world in Hw.
  destruct (current_store w) as [s0|] eqn:Hs; [|simpl; unfold wf_world; now rewrite Hs].
  pose proof (keeps_next_fault w) as H1. unfold wf_world at 1 in H1. rewrite Hs in H1.
  specialize (H1 Hw).
  destruct (next_fault w) as [[[e|]|r] w1]; simpl in *; try exact H1.
  pose proof (keeps_next_fault w1 H1) as H2.
  destruct (next_fault w1) as [[[e|]|r] w2]; simpl in *; try exact H2.
  pose proof (keeps_set_store (snd (f s0)) (Hf s0 Hw) w2 H2) as H3.
  destruct (set_store (snd (f s0)) w2) as [[u|r] w3]; exact H3.
Qed.

Lemma keeps_process_open (version : Z) : keeps (process_open version onupgradeneeded).
Proof.
  unfold process_open. apply keeps_bind; [apply keeps_next_fault|].
  intros [e|]; [apply keeps_ret|].
  intros w Hw. unfold wf_world, current_store in *.
  destruct (database w) as [[dv st]|] eqn:E; simpl in *.
  - destruct (dv <? version); simpl.
    + destruct st; simpl; [exact Hw | apply wf_empty].
    + destruct (dv =? version); simpl; now rewrite E.
  - apply wf_empty.
Qed.

Lemma keeps_transaction (h : IDBDatabase) (mode : IDBTransactionMode) :
  keeps (transaction h mode).
Proof.
  unfold transaction. apply keeps_bind; [apply keeps_record_call|]. intros _.
  destruct (closed h); [apply keeps_throw|].
  apply keeps_bind; [apply keeps_the_store | intros; apply keeps_ret].
Qed.

Lemma keeps_put (store : IDBTransactionMode) (data : obj) : keeps (put store data).
Proof.
  unfold put. apply keeps_bind; [apply keeps_record_call|]. intros _.
  destruct (extract_key data); try apply keeps_throw;
    apply keeps_write_request; intros; now apply store_put_wf.
Qed.

Lemma keeps_delete (store : IDBTransactionMode) (k : Z) : keeps (delete store k).
Proof.
  unfold delete. apply keeps_bind; [apply keeps_record_call|]. intros _.
  apply keeps_write_request. intros. now apply store_delete_wf.
Qed.

Lemma keeps_clear_store (store : IDBTransactionMode) : keeps (clear_store store).
Proof.
  unfold clear_store. apply keeps_bind; [apply keeps_record_call|]. intros _.
  apply keeps_write_request. intros. apply store_clear_wf.
Qed.

Lemma keeps_get (store : IDBTransactionMode) (k : Z) : keeps (get store k).
Proof.
  unfold get. apply keeps_bind; [apply keeps_record_call|]. intros _.
  apply keeps_read_request.
Qed.

Lemma keeps_getAll (store : IDBTransactionMode) : keeps (getAll store).
Proof.
  unfold getAll. apply keeps_bind; [apply keeps_record_call|]. intros _.
  apply keeps_read_request.
Qed.

Lemma keeps_count_store (store : IDBTransactionMode) : keeps (count_store store).
Proof.
  unfold count_store. apply keeps_bind; [apply keeps_record_call|]. intros _.
  apply keeps_read_request.
Qed.

Lemma keeps_index (store : IDBTransactionMode) (name : string) : keeps (index store name).
Proof.
  unfold index. apply keeps_bind; [apply keeps_record_call|]. intros _.
  apply keeps_bind; [apply keeps_the_store|]. intros s.
  destruct (index_keyPath name (indexes s)); [apply keeps_ret | apply keeps_throw].
Qed.

Lemma keeps_index_get (keyPath : string) (x : value) : keeps (index_get keyPath x).
Proof.
  unfold index_get. apply keeps_bind; [apply keeps_record_call|]. intros _.
  destruct (to_key x); [apply keeps_read_request | apply keeps_throw].
Qed.

(** The requests of a transaction do not touch the world's store before
    the commit, and what they hand to the commit is the store after all of
    them. *)
Lemma run_requests_result (reqs : list tx_request) :
  forall s w,
    current_store (snd (run_requests reqs s w)) = current_store w /\
    (forall s1 events, fst (run_requests reqs s w) = inl (Some s1, events) ->
                       s1 = apply_requests reqs s).
Proof.
  induction reqs as [|r rest IH]; intros s w; simpl.
  - split; [reflexivity|]. unfold ret. simpl. now intros s1 events [= <- _].
  - unfold bind, next_fault.
    destruct (faults w) as [|[e|] fs]; simpl.
    + apply IH.
    + split; [reflexivity|]. unfold ret. simpl. discriminate.
    + destruct (IH (apply_request r s) (mkWorld (database w) fs (log w))) as [H1 H2].
      split; [exact H1 | exact H2].
Qed.

Lemma keeps_run_transaction (reqs : list tx_request) : keeps (run_transaction reqs).
Proof.
  intros w Hw. unfold run_transaction, bind, the_store.
  unfold wf_world in Hw.
  destruct (current_store w) as [s0|] eqn:Hs; [|simpl; unfold wf_world; now rewrite Hs].
  destruct (run_requests_result reqs s0 w) as [Hsame Hres].
  destruct (run_requests reqs s0 w) as [[[[s1|] events]|r] w1] eqn:Hrun; simpl in *;
    try (unfold wf_world; rewrite Hsame, Hs; exact Hw).
  assert (Hw1 : wf_world w1) by (unfold wf_world; rewrite Hsame, Hs; exact Hw).
  pose proof (keeps_next_fault w1 Hw1) as H2.
  destruct (next_fault w1) as [[[e|]|r] w2]; simpl in *; try exact H2.
  rewrite (Hres s1 events eq_refl).
  pose proof (keeps_set_store (apply_requests reqs s0)
                (apply_requests_wf reqs s0 Hw) w2 H2) as H3.
  destruct (set_store (apply_requests reqs s0) w2) as [[u|r] w3]; exact H3.
Qed.

Lemma keeps_forEach_put (items : list obj) : keeps (Cached.forEach_put items).
Proof.
  induction items as [|item rest IH]; simpl; [apply keeps_ret|].
  apply keeps_bind; [apply keeps_record_call|]. intros _.
  destruct (extract_key item); try apply keeps_ret;
    (apply keeps_bind; [exact IH | intros; apply keeps_ret]).
Qed.

Lemma keeps_forEach_delete (ids : list Z) : keeps (Cached.forEach_delete ids).
Proof.
  induction ids as [|id rest IH]; simpl; [apply keeps_ret|].
  apply keeps_bind; [apply keeps_record_call|]. intros _.
  apply keeps_bind; [exact IH | intros; apply keeps_ret].
Qed.

Lemma keeps_tx (this : Cached.IDBHelper) (mode : IDBTransactionMode) :
  keeps (Cached.tx this mode).
Proof.
  unfold Cached.tx. destruct (Cached.db this); [apply keeps_transaction | apply keeps_throw].
Qed.

Create HintDb keeps.

#[export] Hint Resolve keeps_ret keeps_throw keeps_resolved keeps_rejected
  keeps_record_call keeps_next_fault keeps_the_store keeps_read_request
  keeps_process_open keeps_transaction keeps_put keeps_delete keeps_clear_store
  keeps_get keeps_getAll keeps_count_store keeps_index keeps_index_get
  keeps_run_transaction keeps_forEach_put keeps_forEach_delete keeps_tx : keeps.

Ltac keeps_step :=
  first
    [ solve [auto with keeps]
    | apply keeps_new_Promise
    | apply keeps_await; [|intros ?]
    | apply keeps_bind; [|intros ?] ].

Ltac keeps_all := repeat keeps_step.

Lemma keeps_PerCall_openDB (this : PerCall.IDBHelper) : keeps (PerCall.openDB this).
Proof. unfold PerCall.openDB. keeps_all. Qed.

(** Every operation of the variant that opens per call keeps the
    invariants, whatever the engine does. *)
Lemma PerCall_keeps_invariants (this : PerCall.IDBHelper) (data : obj) (id : Z) :
  keeps (PerCall.setItem this data) /\
  keeps (PerCall.getItem this id) /\
  keeps (PerCall.getAllItems this) /\
  keeps (PerCall.removeItem this id) /\
  keeps (PerCall.clear this).
Proof.
  pose proof (keeps_PerCall_openDB this).
  unfold PerCall.setItem, PerCall.getItem, PerCall.getAllItems, PerCall.removeItem,
    PerCall.clear.
  repeat split; keeps_all.
Qed.

Lemma keeps_Cached_setItem (this : Cached.IDBHelper) (data : obj) :
  keeps (Cached.setItem this data).
Proof. unfold Cached.setItem. keeps_all. Qed.

Lemma keeps_Cached_getItem (this : Cached.IDBHelper) (id : Z) :
  keeps (Cached.getItem this id).
Proof. unfold Cached.getItem. keeps_all. Qed.

(** Every operation of the variant with a cached connection keeps the
    invariants, whatever the engine does, and so does the task that answers
    the open request. *)
Lemma Cached_keeps_invariants
    (this : Cached.IDBHelper) (data : obj) (id : Z) (items : list obj) (ids : list Z)
    (indexName : string) (x : value) (filter : obj -> bool) (startId endId : Z) :
  keeps (Cached.init_task this) /\
  keeps (Cached.setItem this data) /\
  keeps (Cached.getItem this id) /\
  keeps (Cached.getAllItems this) /\
  keeps (Cached.removeItem this id) /\
  keeps (Cached.clear this) /\
  keeps (Cached.hasItem this id) /\
  keeps (Cached.count this) /\
  keeps (Cached.updateItem this id data) /\
  keeps (Cached.getByIndex this indexName x) /\
  keeps (Cached.getItemsByFilter this filter) /\
  keeps (Cached.getItemsByRange this startId endId) /\
  keeps (Cached.bulkInsert this items) /\
  keeps (Cached.bulkDelete this ids).
Proof.
  pose proof keeps_Cached_setItem. pose proof keeps_Cached_getItem.
  split.
  { intros w Hw. unfold Cached.init_task. destruct (Cached.opening this); [|exact Hw].
    pose proof (keeps_process_open (Cached.version this) w Hw) as Ho.
    destruct (process_open (Cached.version this) onupgradeneeded w) as [[[h|e]|r] w'];
      exact Ho. }
  unfold Cached.getAllItems, Cached.removeItem, Cached.clear, Cached.hasItem,
    Cached.count, Cached.updateItem, Cached.getByIndex, Cached.getItemsByFilter,
    Cached.getItemsByRange, Cached.bulkInsert, Cached.bulkDelete.
  repeat split; auto; keeps_all.
  - destruct (negb (truthy a)); keeps_all.
  - destruct (Cached.db this); keeps_all. destruct (snd a0); keeps_all.
  - destruct (Cached.db this); keeps_all.
Qed.

(** The world right after the first open satisfies the invariants. *)
Lemma opened_wf : wf_world (snd opened).
Proof. simpl. apply wf_empty. Qed.

(** ** A bulk insert stopped by an exception *)

(** A record whose [id] is no key makes [put] throw: the promise is
    rejected with the exception, while the transaction, which nothing
    aborts, commits the puts placed before it. *)
Example bulkInsert_stopped_keeps_earlier_puts :
  let items := [named 10 "j"; [(ID, VNull)]; named 11 "k"] in
  let result := Cached.bulkInsert (fst opened) items (snd opened) in
  fst result = Rejected (RDom DataError) /\
  option_map store_getAll (current_store (snd result)) = Some [named 10 "j"].
Proof. split; reflexivity. Qed.

(** ** Reading never writes *)

Lemma same_ret {A} (a : A) : same_database (ret a).
Proof. intros w. reflexivity. Qed.

Lemma same_throw {A} (r : reason) : same_database (@throw A r).
Proof. intros w. reflexivity. Qed.

Lemma same_record_call (c : call) : same_database (record_call c).
Proof. intros w. reflexivity. Qed.

Lemma same_next_fault : same_database next_fault.
Proof. intros w. unfold next_fault. now destruct (faults w). Qed.

Lemma same_the_store : same_database the_store.
Proof. intros w. unfold the_store. now destruct (current_store w). Qed.

Lemma same_bind {A B} (m : M A) (k : A -> M B) :
  same_database m -> (forall a, same_database (k a)) -> same_database (bind m k).
Proof.
  intros Hm Hk w. unfold bind. specialize (Hm w).
  destruct (m w) as [[a|r] w']; simpl in *; [now rewrite Hk | exact Hm].
Qed.

Lemma same_new_Promise {A} (executor : M (outcome A)) :
  same_database executor -> same_database (new_Promise executor).
Proof.
  intros He w. unfold new_Promise. specialize (He w).
  destruct (executor w) as [[o|r] w']; exact He.
Qed.

Lemma same_read_request {A} (f : IDBObjectStore -> A) : same_database (read_request f).
Proof.
  unfold read_request. apply same_bind; [apply same_next_fault|].
  intros [e|]; [apply same_ret|].
  apply same_bind; [apply same_the_store | intros; apply same_ret].
Qed.

Lemma same_transaction (h : IDBDatabase) (mode : IDBTransactionMode) :
  same_database (transaction h mode).
Proof.
  unfold transaction. apply same_bind; [apply same_record_call|]. intros _.
  destruct (closed h); [apply same_throw|].
  apply same_bind; [apply same_the_store | intros; apply same_ret].
Qed.

Lemma same_tx (this : Cached.IDBHelper) (mode : IDBTransactionMode) :
  same_database (Cached.tx this mode).
Proof.
  unfold Cached.tx. destruct (Cached.db this); [apply same_transaction | apply same_throw].
Qed.

Lemma same_get (store : IDBTransactionMode) (k : Z) : same_database (get store k).
Proof.
  unfold get. apply same_bind; [apply same_record_call | intros; apply same_read_request].
Qed.

Lemma same_getAll (store : IDBTransactionMode) : same_database (getAll store).
Proof.
  unfold getAll. apply same_bind; [apply same_record_call | intros; apply same_read_request].
Qed.

Lemma same_count_store (store : IDBTransactionMode) : same_database (count_store store).
Proof.
  unfold count_store.
  apply same_bind; [apply same_record_call | intros; apply same_read_request].
Qed.

Lemma same_index (store : IDBTransactionMode) (name : string) :
  same_database (index store name).
Proof.
  unfold index. apply same_bind; [apply same_record_call|]. intros _.
  apply same_bind; [apply same_the_store|]. intros s.
  destruct (index_keyPath name (indexes s)); [apply same_ret | apply same_throw].
Qed.

Lemma same_index_get (keyPath : string) (x : value) : same_database (index_get keyPath x).
Proof.
  unfold index_get. apply same_bind; [apply same_record_call|]. intros _.
  destruct (to_key x); [apply same_read_request | apply same_throw].
Qed.

Create HintDb same.

#[export] Hint Resolve same_ret same_throw same_record_call same_next_fault
  same_the_store same_read_request same_transaction same_tx same_get same_getAll
  same_count_store same_index same_index_get : same.

Ltac same_step :=
  first
    [ solve [auto with same]
    | apply same_new_Promise
    | apply same_bind; [|intros ?] ].

(** X1: the seven operations of the cached variant that only read
    ([getItem], [getAllItems], [hasItem], [count], [getByIndex],
    [getItemsByFilter], [getItemsByRange]) leave the database exactly as it
    was, in every state of the connection and whatever the engine answers. *)
Theorem Cached_reads_never_write
    (this : Cached.IDBHelper) (id : Z) (indexName : string) (x : value)
    (filter : obj -> bool) (startId endId : Z) (w : world) :
  database (snd (Cached.getItem this id w)) = database w /\
  database (snd (Cached.getAllItems this w)) = database w /\
  database (snd (Cached.hasItem this id w)) = database w /\
  database (snd (Cached.count this w)) = database w /\
  database (snd (Cached.getByIndex this indexName x w)) = database w /\
  database (snd (Cached.getItemsByFilter this filter w)) = database w /\
  database (snd (Cached.getItemsByRange this startId endId w)) = database w.
Proof.
  repeat split;
    match goal with
    | |- database (snd (?f w)) = database w =>
        assert (H : same_database f); [|exact (H w)]
    end;
    unfold Cached.getItem, Cached.getAllItems, Cached.hasItem, Cached.count,
      Cached.getByIndex, Cached.getItemsByFilter, Cached.getItemsByRange;
    repeat same_step.
Qed.

(** ** A write that is rejected has written nothing *)

Lemma write_request_rejected {A B} (f : IDBObjectStore -> A * IDBObjectStore)
    (k : A -> B) (w : world) (ev : event A) (w' : world) :
  write_request Readwrite f w = (inl ev, w') ->
  (forall r, on_request ev k = Rejected r -> database w' = database w).
Proof.
  destruct w as [d fl lg].
  unfold write_request, bind, the_store, next_fault, set_store, ret, current_store.
  simpl. destruct d as [[dv [st|]]|]; simpl; try discriminate.
  destruct fl as [|[e|] [|[e'|] fs]]; simpl;
    intros Heq; injection Heq as <- <-; intros r; simpl;
    try discriminate; intros _; reflexivity.
Qed.

Lemma write_request_throws {A} (f : IDBObjectStore -> A * IDBObjectStore)
    (w : world) (r : reason) (w' : world) :
  write_request Readwrite f w = (inr r, w') -> database w' = database w.
Proof.
  destruct w as [d fl lg].
  unfold write_request, bind, the_store, next_fault, set_store, ret, current_store.
  simpl. destruct d as [[dv [st|]]|]; simpl;
    try (intros Heq; injection Heq as _ <-; reflexivity).
  destruct fl as [|[e|] [|[e'|] fs]]; simpl; discriminate.
Qed.

Lemma tx_result (this : Cached.IDBHelper) (mode : IDBTransactionMode) (w : world) :
  database (snd (Cached.tx this mode w)) = database w /\
  (forall m, fst (Cached.tx this mode w) = inl m -> m = mode).
Proof.
  split; [apply same_tx|].
  unfold Cached.tx, transaction, bind, record_call, the_store, ret, throw.
  destruct (Cached.db this) as [[[|]]|]; simpl; try discriminate.
  destruct (current_store _); simpl; [now intros m [= <-] | discriminate].
Qed.

Lemma promise_two_steps {A B C} (m1 : M A) (m2 : A -> M B) (g : B -> outcome C)
    (w : world) :
  new_Promise (x <- m1 ;; y <- m2 x ;; ret (g y)) w =
    match m1 w with
    | (inl a, w1) =>
        match m2 a w1 with
        | (inl b, w2) => (g b, w2)
        | (inr r, w2) => (Rejected r, w2)
        end
    | (inr r, w1) => (Rejected r, w1)
    end.
Proof.
  unfold new_Promise, bind, ret.
  destruct (m1 w) as [[a|r] w1]; [destruct (m2 a w1) as [[b|r] w2]|]; reflexivity.
Qed.

Lemma write_call_rejected {A B} (c : call) (f : IDBObjectStore -> A * IDBObjectStore)
    (k : A -> B) (w : world) (r : reason) :
  fst (match (record_call c ;;; write_request Readwrite f) w with
       | (inl ev, w2) => (on_request ev k, w2)
       | (inr r, w2) => (Rejected r, w2)
       end) = Rejected r ->
  database (snd (match (record_call c ;;; write_request Readwrite f) w with
                 | (inl ev, w2) => (on_request ev k, w2)
                 | (inr r, w2) => (Rejected r, w2)
                 end)) = database w.
Proof.
  assert (Heq : (record_call c ;;; write_request Readwrite f) w =
                write_request Readwrite f
                  (mkWorld (database w) (faults w) (log w ++ [c]))) by reflexivity.
  rewrite Heq.
  destruct (write_request Readwrite f (mkWorld (database w) (faults w) (log w ++ [c])))
    as [[ev|r1] w2] eqn:Hw; cbv beta iota; unfold fst, snd; intros H.
  - now rewrite (write_request_rejected f k _ ev w2 Hw r H).
  - now rewrite (write_request_throws f _ r1 w2 Hw).
Qed.

Lemma Cached_setItem_rejected (this : Cached.IDBHelper) (data : obj) (w : world) (r : reason) :
  fst (Cached.setItem this data w) = Rejected r ->
  database (snd (Cached.setItem this data w)) = database w.
Proof.
  unfold Cached.setItem. rewrite promise_two_steps.
  destruct (tx_result this Readwrite w) as [Hdb Hmode].
  destruct (Cached.tx this Readwrite w) as [[m|r0] w1]; simpl in *; [|intros _; exact Hdb].
  rewrite (Hmode m eq_refl). unfold put.
  destruct (extract_key data).
  - intros H. rewrite <- Hdb.
    exact (write_call_rejected (CPut data) (store_put data) (fun x => x) w1 r H).
  - intros H. rewrite <- Hdb.
    exact (write_call_rejected (CPut data) (store_put data) (fun x => x) w1 r H).
  - unfold bind, record_call, throw. simpl. intros _. exact Hdb.
Qed.

Lemma Cached_removeItem_rejected (this : Cached.IDBHelper) (id : Z) (w : world) (r : reason) :
  fst (Cached.removeItem this id w) = Rejected r ->
  database (snd (Cached.removeItem this id w)) = database w.
Proof.
  unfold Cached.removeItem. rewrite promise_two_steps.
  destruct (tx_result this Readwrite w) as [Hdb Hmode].
  destruct (Cached.tx this Readwrite w) as [[m|r0] w1]; simpl in *; [|intros _; exact Hdb].
  rewrite (Hmode m eq_refl). unfold delete.
  intros H. rewrite <- Hdb.
  exact (write_call_rejected (CDelete id) (fun s => (tt, store_delete id s))
           (fun _ => tt) w1 r H).
Qed.

Lemma Cached_clear_rejected (this : Cached.IDBHelper) (w : world) (r : reason) :
  fst (Cached.clear this w) = Rejected r ->
  database (snd (Cached.clear this w)) = database w.
Proof.
  unfold Cached.clear. rewrite promise_two_steps.
  destruct (tx_result this Readwrite w) as [Hdb Hmode].
  destruct (Cached.tx this Readwrite w) as [[m|r0] w1]; simpl in *; [|intros _; exact Hdb].
  rewrite (Hmode m eq_refl). unfold clear_store.
  intros H. rewrite <- Hdb.
  exact (write_call_rejected CClear (fun s => (tt, store_clear s)) (fun _ => tt) w1 r H).
Qed.

(** X2: whenever [setItem], [removeItem], [clear] or [updateItem] of the
    cached variant rejects, whatever the reason (no connection, closed
    connection, a record whose id is no key, a failure reported by the
    engine, a record that is not found), the database is exactly what it was
    before the call. *)
Theorem Cached_rejected_write_changes_nothing
    (this : Cached.IDBHelper) (data : obj) (id : Z) (w : world) (r : reason) :
  (fst (Cached.setItem this data w) = Rejected r ->
   database (snd (Cached.setItem this data w)) = database w) /\
  (fst (Cached.removeItem this id w) = Rejected r ->
   database (snd (Cached.removeItem this id w)) = database w) /\
  (fst (Cached.clear this w) = Rejected r ->
   database (snd (Cached.clear this w)) = database w) /\
  (fst (Cached.updateItem this id data w) = Rejected r ->
   database (snd (Cached.updateItem this id data w)) = database w).
Proof.
  split; [apply Cached_setItem_rejected|].
  split; [apply Cached_removeItem_rejected|].
  split; [apply Cached_clear_rejected|].
  unfold Cached.updateItem, await.
  assert (Hget : database (snd (Cached.getItem this id w)) = database w).
  { assert (H : same_database (Cached.getItem this id))
      by (unfold Cached.getItem; repeat same_step).
    exact (H w). }
  destruct (Cached.getItem this id w) as [[existing|r0|] w1]; simpl in *; try (intros _; exact Hget).
  destruct (truthy existing); simpl; [|intros _; exact Hget].
  pose proof (Cached_setItem_rejected this (Cached.updatedData existing data id) w1) as Hset.
  destruct (Cached.setItem this (Cached.updatedData existing data id) w1)
    as [[k|r1|] w2]; simpl in *; unfold resolved; simpl; try discriminate.
  intros [= ->]. rewrite (Hset r eq_refl). exact Hget.
Qed.

Lemma Cached_rejected_write_changes_nothing_witness :
  let w := world_with 1 five [Some QuotaExceededError] [] in
  database (snd (Cached.setItem (fst opened) (named 9 "n") w)) = database w /\
  database (snd (Cached.removeItem (fst opened) 3 w)) = database w /\
  database (snd (Cached.clear (fst opened) w)) = database w /\
  database (snd (Cached.updateItem (fst opened) 999 (named 9 "n") (world_of 1 five [])))
    = database (world_of 1 five []).
Proof.
  intros w.
  pose proof (Cached_rejected_write_changes_nothing (fst opened) (named 9 "n") 3 w
                (RDom QuotaExceededError)) as (H1 & H2 & H3 & _).
  pose proof (Cached_rejected_write_changes_nothing (fst opened) (named 9 "n") 999
                (world_of 1 five []) Cached.not_found) as (_ & _ & _ & H4).
  split; [apply H1; reflexivity|].
  split; [apply H2; reflexivity|].
  split; [apply H3; reflexivity|].
  apply H4; reflexivity.
Defined.

(** ** More of what the operations do when the engine reports no failure *)

Lemma Cached_clear_quiet (this : Cached.IDBHelper) (v : Z) (s : IDBObjectStore)
    (l : list call) :
  is_open this ->
  Cached.clear this (world_of v s l) =
    (Resolved tt, world_of v (store_clear s) (l ++ [CTransaction Readwrite; CClear])).
Proof.
  intros Hopen. unfold Cached.clear, Cached.tx. rewrite Hopen. run_promise.
  now rewrite <- app_assoc.
Qed.

Lemma Cached_count_quiet (this : Cached.IDBHelper) (v : Z) (s : IDBObjectStore)
    (l : list call) :
  is_open this ->
  Cached.count this (world_of v s l) =
    (Resolved (store_count s), world_of v s (l ++ [CTransaction Readonly; CCount])).
Proof.
  intros Hopen. unfold Cached.count, Cached.tx. rewrite Hopen. run_promise.
  now rewrite <- app_assoc.
Qed.

Lemma PerCall_clear_quiet (this : PerCall.IDBHelper) (w : world) :
  faults w = [] ->
  openable (PerCall.version this) w ->
  PerCall.clear this w =
    (Resolved tt,
     world_of (PerCall.version this) (store_clear (store_or_empty w))
       (log w ++ [COpen (PerCall.version this); CTransaction Readwrite; CClear])).
Proof.
  intros Hq Ho. unfold PerCall.clear, await.
  rewrite (PerCall_openDB_quiet this w Hq Ho). run_promise.
  now rewrite <- !app_assoc.
Qed.

Lemma PerCall_getAllItems_world_of (this : PerCall.IDBHelper) (s : IDBObjectStore)
    (l : list call) :
  PerCall.getAllItems this (world_of (PerCall.version this) s l) =
    (Resolved (store_getAll s),
     world_of (PerCall.version this) s
       (l ++ [COpen (PerCall.version this); CTransaction Readonly; CGetAll])).
Proof.
  apply (PerCall_getAllItems_quiet this (world_of (PerCall.version this) s l) eq_refl
           (openable_world_of _ _ _)).
Qed.

(** ** Storing and reading back *)

Lemma set_field_same_value (k : string) (x : value) (o : obj) :
  get_field k o = Some x -> set_field k x o = o.
Proof.
  induction o as [|[k' x'] r IH]; simpl; [discriminate|].
  destruct (String.eqb k k') eqn:E.
  - apply String.eqb_eq in E. subst. now intros [= ->].
  - intros H. now rewrite (IH H).
Qed.

(** What [put] stores and answers with: the value with its key in [id]. *)
Lemma store_put_stores (data : obj) (s : IDBObjectStore) :
  let k := fst (store_put data s) in
  lookup k (entries (snd (store_put data s))) = Some (set_field ID (VNum k) data) /\
  (forall k0, get_field ID data = Some (VNum k0) ->
              k = k0 /\ set_field ID (VNum k) data = data) /\
  (extract_key data = KeyGenerate -> k = keygen s).
Proof.
  unfold store_put. destruct (extract_key data) as [k1| |] eqn:E; simpl.
  - apply extract_key_given in E. rewrite (set_field_same_value _ _ _ E).
    split; [apply lookup_insert_same|]. split; [|discriminate].
    intros k0 H. rewrite E in H. injection H as <-. split; reflexivity.
  - split; [apply lookup_insert_same|]. split; [|reflexivity].
    intros k0 H. apply extract_key_given in H. congruence.
  - split; [apply lookup_insert_same|]. split; [|discriminate].
    intros k0 H. apply extract_key_given in H. congruence.
Qed.

(** X3: with no engine failure, [setItem] resolves with the key under which
    the record is stored, and [getItem] of that key then resolves with the
    record, its [id] holding the key; a record that came with a numeric [id]
    is stored under that id and read back unchanged.  This holds for both
    variants; in the cached one [hasItem] then answers [true]. *)
Theorem setItem_then_getItem (data : obj) :
  extract_key data <> KeyInvalid ->
  (forall (this : Cached.IDBHelper) (v : Z) (s : IDBObjectStore) (l : list call),
      is_open this ->
      let first := Cached.setItem this data (world_of v s l) in
      exists k,
        fst first = Resolved k /\
        fst (Cached.getItem this k (snd first)) =
          Resolved (VObj (set_field ID (VNum k) data)) /\
        fst (Cached.hasItem this k (snd first)) = Resolved true /\
        (forall k0, get_field ID data = Some (VNum k0) ->
                    k = k0 /\ set_field ID (VNum k) data = data)) /\
  (forall (this : PerCall.IDBHelper) (w : world),
      faults w = [] ->
      openable (PerCall.version this) w ->
      let first := PerCall.setItem this data w in
      exists k,
        fst first = Resolved k /\
        fst (PerCall.getItem this k (snd first)) =
          Resolved (VObj (set_field ID (VNum k) data)) /\
        (forall k0, get_field ID data = Some (VNum k0) ->
                    k = k0 /\ set_field ID (VNum k) data = data)).
Proof.
  intros Hk. split.
  - intros this v s l Hopen first. subst first.
    rewrite (Cached_setItem_quiet this Hopen v s l data Hk). simpl.
    destruct (store_put_stores data s) as (Hl & Hid & _).
    exists (fst (store_put data s)). split; [reflexivity|].
    rewrite (Cached_getItem_quiet this Hopen), (Cached_hasItem_quiet this Hopen). simpl.
    unfold store_get. rewrite Hl. simpl. auto.
  - intros this w Hq Ho first. subst first.
    rewrite (PerCall_setItem_quiet this w Hq Ho data Hk). simpl.
    destruct (store_put_stores data (store_or_empty w)) as (Hl & Hid & _).
    exists (fst (store_put data (store_or_empty w))). split; [reflexivity|].
    rewrite PerCall_getItem_world_of. simpl.
    unfold store_get. rewrite Hl. auto.
Qed.

Lemma setItem_then_getItem_witness :
  (let first := Cached.setItem (fst opened) (named 7 "g") (world_of 1 five []) in
   exists k,
     fst first = Resolved k /\
     fst (Cached.getItem (fst opened) k (snd first)) =
       Resolved (VObj (set_field ID (VNum k) (named 7 "g"))) /\
     fst (Cached.hasItem (fst opened) k (snd first)) = Resolved true /\
     (forall k0, get_field ID (named 7 "g") = Some (VNum k0) ->
                 k = k0 /\ set_field ID (VNum k) (named 7 "g") = named 7 "g")) /\
  (let first := PerCall.setItem (PerCall.mkHelper 1) (named 7 "g") (fresh []) in
   exists k,
     fst first = Resolved k /\
     fst (PerCall.getItem (PerCall.mkHelper 1) k (snd first)) =
       Resolved (VObj (set_field ID (VNum k) (named 7 "g"))) /\
     (forall k0, get_field ID (named 7 "g") = Some (VNum k0) ->
                 k = k0 /\ set_field ID (VNum k) (named 7 "g") = named 7 "g")).
Proof.
  assert (Hk : extract_key (named 7 "g") <> KeyInvalid) by discriminate.
  split.
  - apply (proj1 (setItem_then_getItem (named 7 "g") Hk) (fst opened) 1 five []).
    reflexivity.
  - apply (proj2 (setItem_then_getItem (named 7 "g") Hk) (PerCall.mkHelper 1) (fresh [])).
    + reflexivity.
    + exact I.
Defined.

(** ** Generated ids *)

Lemma lookup_keys (k : Z) (o : obj) (es : list (Z * obj)) :
  lookup k es = Some o -> In k (keys es).
Proof.
  intros H. apply lookup_In in H. unfold keys. now apply (in_map fst) in H.
Qed.

Lemma lookup_none_keys (k : Z) (es : list (Z * obj)) :
  ~ In k (keys es) -> lookup k es = None.
Proof.
  intros H. destruct (lookup k es) as [o|] eqn:E; [|reflexivity].
  exfalso. apply H. now apply (lookup_keys k o).
Qed.

Lemma keygen_unused (s : IDBObjectStore) :
  keygen_fresh s -> ~ In (keygen s) (keys (entries s)).
Proof.
  unfold keygen_fresh. rewrite Forall_forall. intros H Hin.
  specialize (H _ Hin). lia.
Qed.

Lemma insert_length_new (k : Z) (o : obj) (es : list (Z * obj)) :
  ~ In k (keys es) -> List.length (insert k o es) = S (List.length es).
Proof.
  induction es as [|[k' o'] r IH]; simpl; intros Hn; [reflexivity|].
  destruct (k <? k'); simpl; [reflexivity|].
  destruct (k =? k') eqn:E; simpl.
  - apply Z.eqb_eq in E. subst. tauto.
  - rewrite IH; tauto.
Qed.

Lemma store_put_fresh (data : obj) (s : IDBObjectStore) :
  keygen_fresh s -> keygen_fresh (snd (store_put data s)).
Proof.
  unfold keygen_fresh, store_put. rewrite !Forall_forall. intros H.
  destruct (extract_key data) as [k| |]; simpl; intros x Hx;
    apply insert_keys in Hx; destruct Hx as [->|Hx];
    try lia; specialize (H x Hx); lia.
Qed.

Lemma store_delete_fresh (k : Z) (s : IDBObjectStore) :
  keygen_fresh s -> keygen_fresh (store_delete k s).
Proof.
  unfold keygen_fresh, store_delete, keys, remove. rewrite !Forall_forall. simpl.
  intros H x Hx. apply H. apply in_map_iff in Hx. destruct Hx as [e [<- He]].
  apply filter_In in He. apply in_map. tauto.
Qed.

Lemma store_clear_fresh (s : IDBObjectStore) : keygen_fresh (store_clear s).
Proof. unfold keygen_fresh. simpl. constructor. Qed.

Lemma empty_store_fresh : keygen_fresh empty_store.
Proof. unfold keygen_fresh. simpl. constructor. Qed.

(** X4: with no engine failure and a key generator ahead of the keys in use
    (which it is in a store the facade created and filled), [setItem] of a
    record without [id] resolves with a key that no record had, adds exactly
    one record, and leaves every record already stored as it was: it never
    replaces one. *)
Theorem setItem_without_id_adds
    (this : Cached.IDBHelper) (v : Z) (s : IDBObjectStore) (l : list call) (data : obj) :
  is_open this ->
  keygen_fresh s ->
  extract_key data = KeyGenerate ->
  let first := Cached.setItem this data (world_of v s l) in
  fst first = Resolved (keygen s) /\
  lookup (keygen s) (entries s) = None /\
  exists s',
    current_store (snd first) = Some s' /\
    (forall k o, lookup k (entries s) = Some o -> lookup k (entries s') = Some o) /\
    store_count s' = store_count s + 1 /\
    keygen s' = keygen s + 1 /\
    keygen_fresh s'.
Proof.
  intros Hopen Hfresh Hgen first. subst first.
  assert (Hk : extract_key data <> KeyInvalid) by congruence.
  rewrite (Cached_setItem_quiet this Hopen v s l data Hk). simpl.
  pose proof (keygen_unused s Hfresh) as Hnew.
  pose proof (store_put_fresh data s Hfresh) as Hfresh'.
  unfold store_put in *. rewrite Hgen in *. simpl in *.
  split; [reflexivity|]. split; [now apply lookup_none_keys|].
  eexists. split; [reflexivity|]. simpl. repeat split.
  - intros k o Hl. rewrite lookup_insert_other; [exact Hl|].
    intros <-. apply Hnew. now apply (lookup_keys _ o).
  - unfold store_count. simpl. rewrite insert_length_new by exact Hnew. lia.
  - exact Hfresh'.
Qed.

Lemma setItem_without_id_adds_witness :
  let data := [("name"%string, VStr "f")] in
  let first := Cached.setItem (fst opened) data (world_of 1 five []) in
  fst first = Resolved (keygen five) /\
  lookup (keygen five) (entries five) = None /\
  exists s',
    current_store (snd first) = Some s' /\
    (forall k o, lookup k (entries five) = Some o -> lookup k (entries s') = Some o) /\
    store_count s' = store_count five + 1 /\
    keygen s' = keygen five + 1 /\
    keygen_fresh s'.
Proof.
  intros data.
  apply (setItem_without_id_adds (fst opened) 1 five [] data).
  - reflexivity.
  - unfold keygen_fresh. simpl. repeat constructor.
  - reflexivity.
Defined.

Lemma setItems_outcomes_generated (this : Cached.IDBHelper) (v : Z) (records : list obj) :
  is_open this ->
  Forall (fun r => extract_key r = KeyGenerate) records ->
  forall (s : IDBObjectStore) (l : list call),
    keygen_fresh s ->
    fst (setItems_outcomes (Cached.setItem this) records (world_of v s l)) =
      map (fun i => Resolved (keygen s + Z.of_nat i)) (seq 0 (List.length records)) /\
    exists s' l',
      snd (setItems_outcomes (Cached.setItem this) records (world_of v s l)) =
        world_of v s' l' /\
      store_count s' = store_count s + Z.of_nat (List.length records) /\
      keygen_fresh s'.
Proof.
  intros Hopen. induction 1 as [|r rest Hr Hrest IH]; intros s l Hfresh.
  - simpl. split; [reflexivity|]. exists s, l. repeat split; [lia | exact Hfresh].
  - cbn [setItems_outcomes fst snd].
    assert (Hk : extract_key r <> KeyInvalid) by congruence.
    rewrite (Cached_setItem_quiet this Hopen v s l r Hk). cbn [fst snd].
    pose proof (store_put_fresh r s Hfresh) as Hfresh'.
    pose proof (keygen_unused s Hfresh) as Hnew.
    assert (Hput : store_put r s =
                   (keygen s,
                    mkStore (insert (keygen s) (set_field ID (VNum (keygen s)) r) (entries s))
                            (keygen s + 1) (indexes s)))
      by (unfold store_put; now rewrite Hr).
    rewrite Hput in *. cbn [fst snd] in *.
    destruct (IH _ (l ++ [CTransaction Readwrite; CPut r]) Hfresh')
      as (Hids & s' & l' & Hw & Hcount & Hf').
    split.
    + rewrite Hids. cbn [List.length seq map]. f_equal; [f_equal; lia|].
      rewrite <- seq_shift, map_map. apply map_ext. intros i. f_equal. simpl. lia.
    + exists s', l'. split; [exact Hw|]. split; [|exact Hf'].
      rewrite Hcount. unfold store_count. cbn [entries List.length].
      rewrite insert_length_new by exact Hnew. lia.
Qed.

(** X5: with no engine failure and a key generator ahead of the keys in
    use, a sequence of [N] awaited [setItem] calls on records without [id]
    resolves with [N] consecutive, strictly increasing ids starting at the
    generator's number, and the store holds [N] records more. *)
Theorem setItem_generates_increasing_ids
    (this : Cached.IDBHelper) (v : Z) (s : IDBObjectStore) (l : list call)
    (records : list obj) :
  is_open this ->
  keygen_fresh s ->
  Forall (fun r => extract_key r = KeyGenerate) records ->
  let run := setItems_outcomes (Cached.setItem this) records (world_of v s l) in
  fst run = map (fun i => Resolved (keygen s + Z.of_nat i)) (seq 0 (List.length records)) /\
  fst (Cached.count this (snd run)) =
    Resolved (store_count s + Z.of_nat (List.length records)).
Proof.
  intros Hopen Hfresh Hgen run. subst run.
  destruct (setItems_outcomes_generated this v records Hopen Hgen s l Hfresh)
    as (Hids & s' & l' & Hw & Hcount & _).
  split; [exact Hids|].
  rewrite Hw, (Cached_count_quiet this v s' l' Hopen). simpl. now rewrite Hcount.
Qed.

Lemma setItem_generates_increasing_ids_witness :
  let records := [[("name"%string, VStr "Item 1")]; [("name"%string, VStr "Item 2")]] in
  let run := setItems_outcomes (Cached.setItem (fst opened)) records
               (world_of 1 empty_store []) in
  fst run = map (fun i => Resolved (keygen empty_store + Z.of_nat i))
                (seq 0 (List.length records)) /\
  fst (Cached.count (fst opened) (snd run)) =
    Resolved (store_count empty_store + Z.of_nat (List.length records)).
Proof.
  intros records.
  apply (setItem_generates_increasing_ids (fst opened) 1 empty_store [] records).
  - reflexivity.
  - unfold keygen_fresh. simpl. constructor.
  - repeat constructor.
Defined.

(** ** Clearing and counting *)

(** X6: with no engine failure, [clear] resolves and leaves an empty
    collection, whatever it held: [getAllItems] then resolves with the empty
    list (in both variants), [count] with 0 and [hasItem] with [false] for
    every id.  The key generator is not reset: the next record without [id]
    gets the id it would have got before the [clear]. *)
Theorem clear_empties (id : Z) (data : obj) :
  (forall (this : Cached.IDBHelper) (v : Z) (s : IDBObjectStore) (l : list call),
      is_open this ->
      extract_key data = KeyGenerate ->
      let cleared := Cached.clear this (world_of v s l) in
      fst cleared = Resolved tt /\
      fst (Cached.getAllItems this (snd cleared)) = Resolved [] /\
      fst (Cached.count this (snd cleared)) = Resolved 0 /\
      fst (Cached.hasItem this id (snd cleared)) = Resolved false /\
      fst (Cached.setItem this data (snd cleared)) = Resolved (keygen s)) /\
  (forall (this : PerCall.IDBHelper) (w : world),
      faults w = [] ->
      openable (PerCall.version this) w ->
      let cleared := PerCall.clear this w in
      fst cleared = Resolved tt /\
      fst (PerCall.getAllItems this (snd cleared)) = Resolved [] /\
      fst (PerCall.getItem this id (snd cleared)) = Resolved VUndef).
Proof.
  split.
  - intros this v s l Hopen Hgen cleared. subst cleared.
    rewrite (Cached_clear_quiet this v s l Hopen). simpl.
    rewrite (Cached_getAllItems_quiet this Hopen), (Cached_count_quiet this _ _ _ Hopen),
      (Cached_hasItem_quiet this Hopen).
    rewrite (Cached_setItem_quiet this Hopen) by congruence. simpl.
    unfold store_put. rewrite Hgen. simpl. repeat split.
  - intros this w Hq Ho cleared. subst cleared.
    rewrite (PerCall_clear_quiet this w Hq Ho). simpl.
    rewrite PerCall_getAllItems_world_of, PerCall_getItem_world_of. simpl.
    repeat split.
Qed.

Lemma clear_empties_witness :
  (let cleared := Cached.clear (fst opened) (world_of 1 five []) in
   fst cleared = Resolved tt /\
   fst (Cached.getAllItems (fst opened) (snd cleared)) = Resolved [] /\
   fst (Cached.count (fst opened) (snd cleared)) = Resolved 0 /\
   fst (Cached.hasItem (fst opened) 3 (snd cleared)) = Resolved false /\
   fst (Cached.setItem (fst opened) [("name"%string, VStr "f")] (snd cleared)) =
     Resolved (keygen five)) /\
  (let cleared := PerCall.clear (PerCall.mkHelper 1) (world_of 1 five []) in
   fst cleared = Resolved tt /\
   fst (PerCall.getAllItems (PerCall.mkHelper 1) (snd cleared)) = Resolved [] /\
   fst (PerCall.getItem (PerCall.mkHelper 1) 3 (snd cleared)) = Resolved VUndef).
Proof.
  split.
  - apply (proj1 (clear_empties 3 [("name"%string, VStr "f")]) (fst opened) 1 five []);
      reflexivity.
  - apply (proj2 (clear_empties 3 [("name"%string, VStr "f")]) (PerCall.mkHelper 1)
             (world_of 1 five [])).
    + reflexivity.
    + simpl. right. split; [reflexivity | discriminate].
Defined.

(** X7: in every state of the connection and of the engine, [count] settles
    as [getAllItems] does, and when they resolve the number is the length of
    the list. *)
Theorem count_is_length_of_getAllItems (this : Cached.IDBHelper) (w : world) :
  fst (Cached.count this w) =
    map_outcome (fun all => Z.of_nat (List.length all)) (fst (Cached.getAllItems this w)).
Proof.
  unfold Cached.count, Cached.getAllItems, Cached.tx.
  destruct (Cached.db this) as [[[|]]|]; run_promise; try reflexivity.
  destruct (database w) as [[dv [st|]]|]; simpl; try reflexivity.
  destruct (faults w) as [|[e|] fs]; simpl; try reflexivity;
    unfold store_count, store_getAll; now rewrite length_map.
Qed.

(** ** Filtering *)

Lemma getItemsByFilter_as_getAllItems
    (this : Cached.IDBHelper) (filter : obj -> bool) (w : world) :
  Cached.getItemsByFilter this filter w =
    (map_outcome (List.filter filter) (fst (Cached.getAllItems this w)),
     snd (Cached.getAllItems this w)).
Proof.
  unfold Cached.getItemsByFilter, Cached.getAllItems, Cached.tx.
  destruct (Cached.db this) as [[[|]]|]; run_promise; try reflexivity.
  destruct (database w) as [[dv [st|]]|]; simpl; try reflexivity.
  destruct (faults w) as [|[e|] fs]; reflexivity.
Qed.

(** X8: in every state of the connection and of the engine,
    [getItemsByFilter(filter)] makes the calls of [getAllItems] and settles
    as it does; when it resolves, its result is the list [getAllItems]
    resolves with, restricted to the records the filter accepts, in the same
    order: every record returned is stored and accepted, and every stored
    record that is accepted is returned. *)
Theorem getItemsByFilter_selects
    (this : Cached.IDBHelper) (filter : obj -> bool) (w : world) (result : list obj) :
  fst (Cached.getItemsByFilter this filter w) = Resolved result ->
  snd (Cached.getItemsByFilter this filter w) = snd (Cached.getAllItems this w) /\
  exists all,
    fst (Cached.getAllItems this w) = Resolved all /\
    result = List.filter filter all /\
    (forall r, In r result <-> In r all /\ filter r = true).
Proof.
  rewrite getItemsByFilter_as_getAllItems. simpl.
  destruct (fst (Cached.getAllItems this w)) as [all|r|]; simpl; try discriminate.
  intros [= <-]. split; [reflexivity|]. exists all. split; [reflexivity|].
  split; [reflexivity|]. intros r. apply filter_In.
Qed.

Lemma getItemsByFilter_selects_witness :
  let even := fun r : obj => Z.even (id_of r) in
  let w := world_of 1 five [] in
  snd (Cached.getItemsByFilter (fst opened) even w) =
    snd (Cached.getAllItems (fst opened) w) /\
  exists all,
    fst (Cached.getAllItems (fst opened) w) = Resolved all /\
    [named 2 "b"; named 4 "d"] = List.filter even all /\
    (forall r, In r [named 2 "b"; named 4 "d"] <-> In r all /\ even r = true).
Proof.
  intros even w.
  apply (getItemsByFilter_selects (fst opened) even w [named 2 "b"; named 4 "d"]).
  reflexivity.
Defined.

Lemma in_range_empty (startId endId : Z) (item : obj) :
  endId < startId -> Cached.in_range startId endId item = false.
Proof.
  intros H. unfold Cached.in_range, js_ge, js_le.
  destruct (to_number (prop item ID)) as [a|]; [|reflexivity].
  destruct (startId <=? a) eqn:E1; [|reflexivity].
  apply Z.leb_le in E1. simpl. apply Z.leb_gt. lia.
Qed.

(** X9: [getItemsByRange(startId, endId)] with [endId] below [startId]
    never returns a record: in any state and whatever the store holds, it
    settles as [getAllItems] does, and where that resolves it resolves with
    the empty list. *)
Theorem getItemsByRange_reversed_bounds
    (this : Cached.IDBHelper) (startId endId : Z) (w : world) :
  endId < startId ->
  fst (Cached.getItemsByRange this startId endId w) =
    map_outcome (fun _ => []) (fst (Cached.getAllItems this w)).
Proof.
  intros Hlt.
  change (Cached.getItemsByRange this startId endId w)
    with (Cached.getItemsByFilter this (Cached.in_range startId endId) w).
  rewrite getItemsByFilter_as_getAllItems. simpl.
  destruct (fst (Cached.getAllItems this w)) as [all|r|]; simpl; try reflexivity.
  f_equal. induction all as [|o rest IH]; simpl; [reflexivity|].
  now rewrite (in_range_empty startId endId o Hlt).
Qed.

Lemma getItemsByRange_reversed_bounds_witness :
  fst (Cached.getItemsByRange (fst opened) 4 2 (world_of 1 five [])) =
    map_outcome (fun _ => []) (fst (Cached.getAllItems (fst opened) (world_of 1 five []))).
Proof.
  apply (getItemsByRange_reversed_bounds (fst opened) 4 2 (world_of 1 five [])).
  lia.
Defined.

(** ** Removing one record *)

Lemma remove_length_present (k : Z) (o : obj) (es : list (Z * obj)) :
  StronglySorted Z.lt (keys es) ->
  lookup k es = Some o ->
  S (List.length (remove k es)) = List.length es.
Proof.
  induction es as [|[k' o'] r IH]; simpl; intros Hs Hl; [discriminate|].
  inversion Hs as [|? ? Hs' Hall]; subst.
  destruct (k' =? k) eqn:E; simpl.
  - apply Z.eqb_eq in E. subst k'. f_equal.
    change (filter (fun e => negb (fst e =? k)) r) with (remove k r).
    rewrite remove_absent; [reflexivity|].
    apply lookup_none_keys. intros Hin. rewrite Forall_forall in Hall.
    specialize (Hall _ Hin). lia.
  - f_equal. now apply IH.
Qed.

(** X10: with no engine failure, [removeItem(x)] removes the record under
    [x] and nothing else: every other id reads back as before, and on a
    collection satisfying the data model's invariants [count] goes down by
    exactly one when [x] was stored and stays the same when it was not. *)
Theorem removeItem_removes_only_that
    (this : Cached.IDBHelper) (v : Z) (s : IDBObjectStore) (l : list call) (x : Z) :
  is_open this ->
  wf_store s ->
  let after := snd (Cached.removeItem this x (world_of v s l)) in
  (forall k, k <> x ->
             fst (Cached.getItem this k after) =
             fst (Cached.getItem this k (world_of v s l))) /\
  (forall o, lookup x (entries s) = Some o ->
             fst (Cached.count this after) = Resolved (store_count s - 1)) /\
  (lookup x (entries s) = None ->
   fst (Cached.count this after) = Resolved (store_count s)).
Proof.
  intros Hopen Hwf after. subst after.
  rewrite (Cached_removeItem_quiet this Hopen). simpl. repeat split.
  - intros k Hk. rewrite !(Cached_getItem_quiet this Hopen). simpl.
    unfold store_get, store_delete. simpl. now rewrite lookup_remove_other by congruence.
  - intros o Hl. rewrite (Cached_count_quiet this _ _ _ Hopen). simpl.
    unfold store_count, store_delete. simpl.
    rewrite <- (remove_length_present x o (entries s) (wf_sorted s Hwf) Hl). f_equal. lia.
  - intros Hl. rewrite (Cached_count_quiet this _ _ _ Hopen). simpl.
    now rewrite store_delete_absent.
Qed.

Lemma removeItem_removes_only_that_witness :
  let after := snd (Cached.removeItem (fst opened) 3 (world_of 1 five [])) in
  (forall k, k <> 3 ->
             fst (Cached.getItem (fst opened) k after) =
             fst (Cached.getItem (fst opened) k (world_of 1 five []))) /\
  (forall o, lookup 3 (entries five) = Some o ->
             fst (Cached.count (fst opened) after) = Resolved (store_count five - 1)) /\
  (lookup 3 (entries five) = None ->
   fst (Cached.count (fst opened) after) = Resolved (store_count five)).
Proof.
  apply (removeItem_removes_only_that (fst opened) 1 five [] 3).
  - reflexivity.
  - split; simpl.
    + repeat (constructor; [|repeat (constructor; try lia)]). constructor.
    + repeat constructor.
Defined.

(** ** Bulk operations against one call at a time *)

Lemma Cached_setItems_store (this : Cached.IDBHelper) (v : Z) (items : list obj) :
  is_open this ->
  Forall (fun r => extract_key r <> KeyInvalid) items ->
  forall (s : IDBObjectStore) (l : list call),
    current_store (setItems (Cached.setItem this) items (world_of v s l)) =
      Some (apply_requests (map TxPut items) s).
Proof.
  intros Hopen. induction 1 as [|r rest Hr Hrest IH]; intros s l; simpl; [reflexivity|].
  rewrite (Cached_setItem_quiet this Hopen v s l r Hr). simpl. apply IH.
Qed.

Lemma Cached_removeItems_store (this : Cached.IDBHelper) (v : Z) (ids : list Z) :
  is_open this ->
  forall (s : IDBObjectStore) (l : list call),
    current_store (removeItems (Cached.removeItem this) ids (world_of v s l)) =
      Some (apply_requests (map TxDelete ids) s).
Proof.
  intros Hopen. induction ids as [|id rest IH]; intros s l; simpl; [reflexivity|].
  rewrite (Cached_removeItem_quiet this Hopen). simpl. apply IH.
Qed.

Lemma apply_deletes_gone (ids : list Z) :
  forall (s : IDBObjectStore) (k : Z),
    In k ids \/ lookup k (entries s) = None ->
    lookup k (entries (apply_requests (map TxDelete ids) s)) = None.
Proof.
  induction ids as [|id rest IH]; intros s k H; simpl.
  - destruct H as [[]|H]; exact H.
  - apply IH. destruct H as [[->|Hin]|Hnone].
    + right. simpl. apply lookup_remove_same.
    + now left.
    + right. simpl. destruct (Z.eq_dec id k) as [->|Hne];
        [apply lookup_remove_same | now rewrite lookup_remove_other].
Qed.

(** X11: with no engine failure, [bulkInsert] of records whose ids are keys
    (or missing) resolves and leaves the store that awaiting [setItem] on
    each record in turn leaves, having placed one transaction instead of one
    per record; each inserted id then exists.  [bulkDelete] likewise resolves
    and leaves the store that awaiting [removeItem] on each id in turn
    leaves; each deleted id is then gone.  On an empty list both resolve and
    the store is unchanged. *)
Theorem bulk_as_sequence
    (this : Cached.IDBHelper) (v : Z) (s : IDBObjectStore) (l : list call)
    (items : list obj) (ids : list Z) :
  is_open this ->
  Forall (fun r => extract_key r <> KeyInvalid) items ->
  let inserted := Cached.bulkInsert this items (world_of v s l) in
  let deleted := Cached.bulkDelete this ids (world_of v s l) in
  (fst inserted = Resolved tt /\
   current_store (snd inserted) =
     current_store (setItems (Cached.setItem this) items (world_of v s l)) /\
   log (snd inserted) = l ++ CTransaction Readwrite :: map CPut items /\
   (forall item k, In item items -> get_field ID item = Some (VNum k) ->
                   fst (Cached.hasItem this k (snd inserted)) = Resolved true)) /\
  (fst deleted = Resolved tt /\
   current_store (snd deleted) =
     current_store (removeItems (Cached.removeItem this) ids (world_of v s l)) /\
   log (snd deleted) = l ++ CTransaction Readwrite :: map CDelete ids /\
   (forall id, In id ids -> fst (Cached.hasItem this id (snd deleted)) = Resolved false)).
Proof.
  intros Hopen Hvalid inserted deleted. subst inserted deleted.
  destruct (bulk_quiet this Hopen v s items ids l Hvalid) as [-> ->]. simpl.
  rewrite (Cached_setItems_store this v items Hopen Hvalid),
    (Cached_removeItems_store this v ids Hopen).
  split; (split; [reflexivity|]; split; [reflexivity|]; split; [reflexivity|]).
  - intros item k Hin Hid. rewrite (Cached_hasItem_quiet this Hopen). simpl.
    pose proof (apply_puts_retrievable items s item k Hin Hid) as Hget.
    unfold store_get in *.
    destruct (lookup k (entries (apply_requests (map TxPut items) s)));
      [reflexivity | contradiction].
  - intros id Hin. rewrite (Cached_hasItem_quiet this Hopen). simpl.
    unfold store_get. rewrite apply_deletes_gone; [reflexivity | now left].
Qed.

Lemma bulk_as_sequence_witness :
  let this := fst opened in
  let items := [named 10 "j"; [("name"%string, VStr "k")]; named 2 "B"] in
  let ids := [4; 9; 1] in
  let inserted := Cached.bulkInsert this items (world_of 1 five []) in
  let deleted := Cached.bulkDelete this ids (world_of 1 five []) in
  (fst inserted = Resolved tt /\
   current_store (snd inserted) =
     current_store (setItems (Cached.setItem this) items (world_of 1 five [])) /\
   log (snd inserted) = [] ++ CTransaction Readwrite :: map CPut items /\
   (forall item k, In item items -> get_field ID item = Some (VNum k) ->
                   fst (Cached.hasItem this k (snd inserted)) = Resolved true)) /\
  (fst deleted = Resolved tt /\
   current_store (snd deleted) =
     current_store (removeItems (Cached.removeItem this) ids (world_of 1 five [])) /\
   log (snd deleted) = [] ++ CTransaction Readwrite :: map CDelete ids /\
   (forall id, In id ids -> fst (Cached.hasItem this id (snd deleted)) = Resolved false)).
Proof.
  intros this items ids.
  apply (bulk_as_sequence this 1 five [] items ids).
  - reflexivity.
  - repeat constructor; discriminate.
Defined.

Lemma forEach_put_stopped (pre : list obj) (bad : obj) (post : list obj) :
  Forall (fun r => extract_key r <> KeyInvalid) pre ->
  extract_key bad = KeyInvalid ->
  forall w,
    Cached.forEach_put (pre ++ bad :: post) w =
      (inl (map TxPut pre, Some DataError),
       mkWorld (database w) (faults w) ((log w ++ map CPut pre) ++ [CPut bad])).
Proof.
  intros Hpre Hbad. induction Hpre as [|item rest Hitem Hrest IH]; intros w; simpl.
  - unfold bind, record_call. rewrite Hbad. unfold ret. simpl. now rewrite app_nil_r.
  - unfold bind at 1. unfold record_call at 1.
    destruct (extract_key item); [| |congruence];
      unfold bind; rewrite IH; simpl; unfold ret; now rewrite <- !app_assoc.
Qed.

(** X12: [bulkInsert] is stopped by the first record whose [id] holds a
    value that is no key for the engine ([null], a boolean, an object):
    [put] throws, the promise is rejected with the engine's DataError, the
    records after it are never put, and, nothing aborting the transaction,
    the records before it are committed all the same (with no engine
    failure). *)
Theorem bulkInsert_stopped_midway
    (this : Cached.IDBHelper) (v : Z) (s : IDBObjectStore) (l : list call)
    (pre : list obj) (bad : obj) (post : list obj) (x : value) :
  is_open this ->
  Forall (fun r => extract_key r <> KeyInvalid) pre ->
  get_field ID bad = Some x ->
  no_key x = true ->
  Cached.bulkInsert this (pre ++ bad :: post) (world_of v s l) =
    (Rejected (RDom DataError),
     world_of v (apply_requests (map TxPut pre) s)
       (l ++ CTransaction Readwrite :: map CPut pre ++ [CPut bad])).
Proof.
  intros Hopen Hpre Hid Hx.
  assert (Hbad : extract_key bad = KeyInvalid).
  { unfold extract_key. rewrite Hid. destruct x; simpl in Hx; congruence. }
  unfold Cached.bulkInsert, world_of. rewrite Hopen.
  cbv beta iota zeta delta
    [new_Promise bind transaction record_call the_store current_store ret throw].
  simpl. rewrite (forEach_put_stopped pre bad post Hpre Hbad). simpl.
  pose proof (run_transaction_quiet v s (map TxPut pre)
                (((l ++ [CTransaction Readwrite]) ++ map CPut pre) ++ [CPut bad])) as Hrun.
  unfold world_with in Hrun. rewrite Hrun. simpl.
  unfold world_of. f_equal. f_equal. now rewrite <- !app_assoc.
Qed.

Lemma bulkInsert_stopped_midway_witness :
  Cached.bulkInsert (fst opened) ([named 10 "j"] ++ [(ID, VNull)] :: [named 11 "k"])
      (world_of 1 five []) =
    (Rejected (RDom DataError),
     world_of 1 (apply_requests (map TxPut [named 10 "j"]) five)
       ([] ++ CTransaction Readwrite :: map CPut [named 10 "j"] ++ [CPut [(ID, VNull)]])).
Proof.
  apply (bulkInsert_stopped_midway (fst opened) 1 five [] [named 10 "j"] [(ID, VNull)]
           [named 11 "k"] VNull).
  - reflexivity.
  - repeat constructor; discriminate.
  - reflexivity.
  - reflexivity.
Defined.

(** ** Closing the connection *)

(** X13: [closeDB] closes the connection held in [this.db] and does nothing
    when there is none, so that a [closeDB] issued before the open request
    was answered is lost: the answer still installs an open connection.
    After [closeDB] on a facade that holds a connection every operation is
    rejected with the engine's InvalidStateError, having made its
    transaction call and nothing else, and the database is untouched; a
    second [closeDB] changes nothing. *)
Theorem closeDB_refuses_operations
    (this : Cached.IDBHelper) (w : world) (data : obj) (id : Z) (items : list obj)
    (ids : list Z) (indexName : string) (x : value) (filter : obj -> bool)
    (startId endId : Z) :
  (Cached.db this = None -> Cached.closeDB this = this) /\
  (forall version w0,
      faults w0 = [] -> database w0 = None ->
      let built := Cached.constructor version w0 in
      is_open (fst (Cached.init_task (Cached.closeDB (fst built)) (snd built)))) /\
  (Cached.db this <> None ->
   let c := Cached.closeDB this in
   Cached.closeDB c = c /\
   Cached.setItem c data w = (Rejected (RDom InvalidStateError), refused w Readwrite) /\
   Cached.getItem c id w = (Rejected (RDom InvalidStateError), refused w Readonly) /\
   Cached.getAllItems c w = (Rejected (RDom InvalidStateError), refused w Readonly) /\
   Cached.removeItem c id w = (Rejected (RDom InvalidStateError), refused w Readwrite) /\
   Cached.clear c w = (Rejected (RDom InvalidStateError), refused w Readwrite) /\
   Cached.hasItem c id w = (Rejected (RDom InvalidStateError), refused w Readonly) /\
   Cached.count c w = (Rejected (RDom InvalidStateError), refused w Readonly) /\
   Cached.updateItem c id data w = (Rejected (RDom InvalidStateError), refused w Readonly) /\
   Cached.getByIndex c indexName x w = (Rejected (RDom InvalidStateError), refused w Readonly) /\
   Cached.getItemsByFilter c filter w = (Rejected (RDom InvalidStateError), refused w Readonly) /\
   Cached.getItemsByRange c startId endId w = (Rejected (RDom InvalidStateError), refused w Readonly) /\
   Cached.bulkInsert c items w = (Rejected (RDom InvalidStateError), refused w Readwrite) /\
   Cached.bulkDelete c ids w = (Rejected (RDom InvalidStateError), refused w Readwrite)).
Proof.
  split; [|split].
  - intros H. unfold Cached.closeDB. now rewrite H.
  - intros version w0 Hq Hdb built. subst built.
    unfold Cached.constructor, Cached.init, Cached.closeDB, Cached.init_task,
      process_open, is_open. run_promise. rewrite Hq, Hdb. reflexivity.
  - intros Hdb c. subst c.
    unfold Cached.closeDB. destruct (Cached.db this) as [h|]; [|congruence].
    repeat split.
Qed.

Lemma closeDB_refuses_operations_witness :
  let this := fst opened in
  let w := snd opened in
  let c := Cached.closeDB this in
  is_open (fst (Cached.init_task (Cached.closeDB (fst (Cached.constructor 1 (fresh []))))
                  (snd (Cached.constructor 1 (fresh []))))) /\
  Cached.closeDB c = c /\
  Cached.setItem c (named 1 "a") w = (Rejected (RDom InvalidStateError), refused w Readwrite) /\
  Cached.getItem c 1 w = (Rejected (RDom InvalidStateError), refused w Readonly) /\
  Cached.bulkInsert c [named 1 "a"] w = (Rejected (RDom InvalidStateError), refused w Readwrite).
Proof.
  intros this w c.
  destruct (closeDB_refuses_operations this w (named 1 "a") 1 [named 1 "a"] [1]
              "by_name"%string (VNum 1) (fun _ => true) 1 2) as (_ & Hlost & Hclosed).
  split; [apply (Hlost 1 (fresh [])); reflexivity|].
  destruct Hclosed as (H0 & H1 & H2 & _ & _ & _ & _ & _ & _ & _ & _ & _ & H13 & _);
    [discriminate|].
  repeat split; assumption.
Defined.

(** ** Opening *)

Lemma PerCall_openDB_fails (this : PerCall.IDBHelper) (w : world) (e : DOMException) :
  (exists fs, faults w = Some e :: fs) \/
  (e = VersionError /\ (faults w = [] \/ exists fs, faults w = None :: fs) /\
   exists d, database w = Some d /\ PerCall.version this < dbversion d) ->
  PerCall.openDB this w =
    (Rejected (RDom e),
     mkWorld (database w) (tl (faults w)) (log w ++ [COpen (PerCall.version this)])).
Proof.
  destruct w as [db fl lg]. unfold PerCall.openDB, process_open. run_promise.
  intros [[fs Hf]|(-> & Hf & d & Hd & Hv)]; subst; simpl; [reflexivity|].
  assert (E1 : (dbversion d <? PerCall.version this) = false) by (apply Z.ltb_ge; lia).
  assert (E2 : (dbversion d =? PerCall.version this) = false) by (apply Z.eqb_neq; lia).
  destruct Hf as [->|[fs ->]]; simpl; now rewrite E1, E2.
Qed.

(** X14: in the variant that opens per call, when the open request fails,
    because the engine reports an error or because the database already has
    a newer version than the facade asks for (VersionError), every operation
    is rejected with that error; the open request is the only call made, no
    transaction is started, and the database is untouched. *)
Theorem PerCall_open_failure_rejects
    (this : PerCall.IDBHelper) (w : world) (e : DOMException) (data : obj) (id : Z) :
  (exists fs, faults w = Some e :: fs) \/
  (e = VersionError /\ (faults w = [] \/ exists fs, faults w = None :: fs) /\
   exists d, database w = Some d /\ PerCall.version this < dbversion d) ->
  let failed :=
    mkWorld (database w) (tl (faults w)) (log w ++ [COpen (PerCall.version this)]) in
  PerCall.setItem this data w = (Rejected (RDom e), failed) /\
  PerCall.getItem this id w = (Rejected (RDom e), failed) /\
  PerCall.getAllItems this w = (Rejected (RDom e), failed) /\
  PerCall.removeItem this id w = (Rejected (RDom e), failed) /\
  PerCall.clear this w = (Rejected (RDom e), failed).
Proof.
  intros H failed. subst failed.
  unfold PerCall.setItem, PerCall.getItem, PerCall.getAllItems, PerCall.removeItem,
    PerCall.clear, await.
  rewrite (PerCall_openDB_fails this w e H). repeat split.
Qed.

Lemma PerCall_open_failure_rejects_witness :
  let this := PerCall.mkHelper 1 in
  let w := world_of 2 five [] in
  let failed := mkWorld (database w) (tl (faults w)) (log w ++ [COpen 1]) in
  PerCall.setItem this (named 1 "a") w = (Rejected (RDom VersionError), failed) /\
  PerCall.getItem this 1 w = (Rejected (RDom VersionError), failed) /\
  PerCall.getAllItems this w = (Rejected (RDom VersionError), failed) /\
  PerCall.removeItem this 1 w = (Rejected (RDom VersionError), failed) /\
  PerCall.clear this w = (Rejected (RDom VersionError), failed).
Proof.
  intros this w.
  apply (PerCall_open_failure_rejects this w VersionError (named 1 "a") 1).
  right. split; [reflexivity|]. split; [now left|].
  eexists. split; [reflexivity | simpl; lia].
Defined.



(** X16: what the open of the per-call variant does to the database.  A
    database older than the version asked for is upgraded and keeps its
    records; a database that does not exist is created with an empty store;
    a database that already has the version asked for but no store of that
    name is left without it, the store being created in an upgrade only, and
    every operation on it is rejected with the engine's NotFoundError. *)
Theorem PerCall_open_creates_store_only_on_upgrade
    (this : PerCall.IDBHelper) (s : IDBObjectStore) (dv : Z) (l : list call)
    (data : obj) (id : Z) :
  let version := PerCall.version this in
  (dv < version ->
   let w := mkWorld (Some (mkDb dv (Some s))) [] l in
   fst (PerCall.getAllItems this w) = Resolved (store_getAll s) /\
   database (snd (PerCall.getAllItems this w)) = Some (mkDb version (Some s))) /\
  (let w := mkWorld None [] l in
   fst (PerCall.getAllItems this w) = Resolved [] /\
   database (snd (PerCall.getAllItems this w)) = Some (mkDb version (Some empty_store))) /\
  (let w := mkWorld (Some (mkDb version None)) [] l in
   fst (PerCall.setItem this data w) = Rejected (RDom NotFoundError) /\
   fst (PerCall.getItem this id w) = Rejected (RDom NotFoundError) /\
   fst (PerCall.getAllItems this w) = Rejected (RDom NotFoundError) /\
   fst (PerCall.removeItem this id w) = Rejected (RDom NotFoundError) /\
   fst (PerCall.clear this w) = Rejected (RDom NotFoundError) /\
   database (snd (PerCall.setItem this data w)) = database w).
Proof.
  intros version. subst version. split; [|split].
  - intros Hlt w. subst w.
    rewrite PerCall_getAllItems_quiet; [now split | reflexivity | simpl; now left].
  - intros w. subst w.
    rewrite PerCall_getAllItems_quiet; [now split | reflexivity | exact I].
  - intros w. subst w.
    unfold PerCall.setItem, PerCall.getItem, PerCall.getAllItems, PerCall.removeItem,
      PerCall.clear, PerCall.openDB, process_open. run_promise.
    rewrite Z.ltb_irrefl, Z.eqb_refl. simpl. repeat split.
Qed.

Lemma PerCall_open_creates_store_only_on_upgrade_witness :
  let this := PerCall.mkHelper 2 in
  let w := mkWorld (Some (mkDb 1 (Some five))) [] [] in
  fst (PerCall.getAllItems this w) = Resolved (store_getAll five) /\
  database (snd (PerCall.getAllItems this w)) = Some (mkDb 2 (Some five)).
Proof.
  intros this w.
  apply (proj1 (PerCall_open_creates_store_only_on_upgrade this five 1 [] (named 1 "a") 1)).
  simpl. lia.
Defined.

(** ** The invariants, in every state *)

(** X17: every operation of both variants, and the task answering the
    cached variant's open request, keeps the collection ordered by strictly
    ascending key with each record's [id] equal to its key, whatever the
    state of the connection and whatever the engine answers (failures
    included). *)
Theorem operations_keep_invariants
    (this : Cached.IDBHelper) (that : PerCall.IDBHelper) (w : world)
    (data : obj) (id : Z) (items : list obj) (ids : list Z)
    (indexName : string) (x : value) (filter : obj -> bool) (startId endId : Z) :
  wf_world w ->
  (wf_world (snd (Cached.init_task this w)) /\
   wf_world (snd (Cached.setItem this data w)) /\
   wf_world (snd (Cached.getItem this id w)) /\
   wf_world (snd (Cached.getAllItems this w)) /\
   wf_world (snd (Cached.removeItem this id w)) /\
   wf_world (snd (Cached.clear this w)) /\
   wf_world (snd (Cached.hasItem this id w)) /\
   wf_world (snd (Cached.count this w)) /\
   wf_world (snd (Cached.updateItem this id data w)) /\
   wf_world (snd (Cached.getByIndex this indexName x w)) /\
   wf_world (snd (Cached.getItemsByFilter this filter w)) /\
   wf_world (snd (Cached.getItemsByRange this startId endId w)) /\
   wf_world (snd (Cached.bulkInsert this items w)) /\
   wf_world (snd (Cached.bulkDelete this ids w))) /\
  (wf_world (snd (PerCall.setItem that data w)) /\
   wf_world (snd (PerCall.getItem that id w)) /\
   wf_world (snd (PerCall.getAllItems that w)) /\
   wf_world (snd (PerCall.removeItem that id w)) /\
   wf_world (snd (PerCall.clear that w))).
Proof.
  intros Hw.
  pose proof (Cached_keeps_invariants this data id items ids indexName x filter
                startId endId) as Hc.
  pose proof (PerCall_keeps_invariants that data id) as Hp.
  unfold keeps in *. intuition auto.
Qed.

Lemma operations_keep_invariants_witness :
  wf_world (snd (Cached.bulkInsert (fst opened) [named 2 "b"; named 1 "a"]
                   (world_with 1 five [None; Some UnknownError] []))) /\
  wf_world (snd (PerCall.setItem (PerCall.mkHelper 3) (named 0 "z") (world_of 1 five []))).
Proof.
  assert (Hw : forall fs, wf_world (world_with 1 five fs [])).
  { intros fs. split; simpl.
    - repeat (constructor; [|repeat (constructor; try lia)]). constructor.
    - repeat constructor. }
  split.
  - apply (operations_keep_invariants (fst opened) (PerCall.mkHelper 3)
             (world_with 1 five [None; Some UnknownError] []) (named 0 "z") 0
             [named 2 "b"; named 1 "a"] [] "n"%string VNull (fun _ => true) 0 0
             (Hw [None; Some UnknownError])).
  - apply (operations_keep_invariants (fst opened) (PerCall.mkHelper 3)
             (world_of 1 five []) (named 0 "z") 0
             [named 2 "b"; named 1 "a"] [] "n"%string VNull (fun _ => true) 0 0 (Hw [])).
Defined.

(** ** Failures between the steps of an operation *)

(** X18: [setItem] settles on the success of its request, not on the
    completion of its transaction: when the request goes through and the
    commit then fails, the promise has resolved with the key although the
    store is what it was before the call. *)
Theorem setItem_resolves_before_commit
    (this : Cached.IDBHelper) (v : Z) (s : IDBObjectStore) (l : list call)
    (data : obj) (e : DOMException) (fs : list (option DOMException)) :
  is_open this ->
  extract_key data <> KeyInvalid ->
  Cached.setItem this data (world_with v s (None :: Some e :: fs) l) =
    (Resolved (fst (store_put data s)),
     world_with v s fs (l ++ [CTransaction Readwrite; CPut data])).
Proof.
  intros Hopen Hk. unfold Cached.setItem, Cached.tx, world_with. rewrite Hopen.
  run_promise. destruct (extract_key data); [| |congruence]; simpl;
    now rewrite <- app_assoc.
Qed.

Lemma setItem_resolves_before_commit_witness :
  Cached.setItem (fst opened) (named 9 "n")
      (world_with 1 five (None :: Some QuotaExceededError :: []) []) =
    (Resolved (fst (store_put (named 9 "n") five)),
     world_with 1 five [] ([] ++ [CTransaction Readwrite; CPut (named 9 "n")])).
Proof.
  apply (setItem_resolves_before_commit (fst opened) 1 five [] (named 9 "n")
           QuotaExceededError []).
  - reflexivity.
  - discriminate.
Defined.

(** X19: [updateItem] reads in one transaction and writes in another.  When
    the read goes through and the request of the write fails, the promise is
    rejected with the engine's error of the write and the record is what it
    was; the calls made are the two transactions with one request each. *)
Theorem updateItem_write_failure
    (this : Cached.IDBHelper) (v : Z) (s : IDBObjectStore) (l : list call)
    (id : Z) (updates existing : obj) (e : DOMException)
    (fs : list (option DOMException)) :
  is_open this ->
  lookup id (entries s) = Some existing ->
  Cached.updateItem this id updates (world_with v s (None :: Some e :: fs) l) =
    (Rejected (RDom e),
     world_with v s fs
       (l ++ [CTransaction Readonly; CGet id; CTransaction Readwrite;
              CPut (Cached.updatedData (VObj existing) updates id)])).
Proof.
  intros Hopen Hex.
  unfold Cached.updateItem, Cached.getItem, Cached.setItem, Cached.tx, await, world_with.
  rewrite Hopen. run_promise. unfold store_get. rewrite Hex. simpl.
  assert (Hk : extract_key (Cached.updatedData (VObj existing) updates id) = KeyGiven id)
    by (apply extract_key_given, updatedData_id).
  rewrite Hk. simpl. now rewrite <- !app_assoc.
Qed.

Lemma updateItem_write_failure_witness :
  Cached.updateItem (fst opened) 3 [("name"%string, VStr "C")]
      (world_with 1 five (None :: Some UnknownError :: []) []) =
    (Rejected (RDom UnknownError),
     world_with 1 five []
       ([] ++ [CTransaction Readonly; CGet 3; CTransaction Readwrite;
               CPut (Cached.updatedData (VObj (named 3 "c"))
                       [("name"%string, VStr "C")] 3)])).
Proof.
  apply (updateItem_write_failure (fst opened) 1 five [] 3 [("name"%string, VStr "C")]
           (named 3 "c") UnknownError []); reflexivity.
Defined.

Lemma insert_length_present (k : Z) (o o' : obj) (es : list (Z * obj)) :
  StronglySorted Z.lt (keys es) ->
  lookup k es = Some o' ->
  List.length (insert k o es) = List.length es.
Proof.
  induction es as [|[k0 o0] r IH]; simpl; intros Hs; [discriminate|].
  inversion Hs as [|? ? Hs' Hall]; subst.
  destruct (k0 =? k) eqn:E.
  - intros _. apply Z.eqb_eq in E. subst k0. now rewrite Z.ltb_irrefl, Z.eqb_refl.
  - intros Hl. pose proof (lookup_keys _ _ _ Hl) as Hin.
    rewrite Forall_forall in Hall. specialize (Hall _ Hin).
    destruct (k <? k0) eqn:E1; [apply Z.ltb_lt in E1; lia|].
    rewrite Z.eqb_sym, E. simpl. f_equal. now apply IH.
Qed.

(** X20: with no engine failure and a collection satisfying the data
    model's invariants, [updateItem] never adds or removes a record: whether
    it resolves (the id is stored) or rejects (it is not), [count] answers
    afterwards what it answered before. *)
Theorem updateItem_keeps_count
    (this : Cached.IDBHelper) (v : Z) (s : IDBObjectStore) (l : list call)
    (id : Z) (updates : obj) :
  is_open this ->
  wf_store s ->
  fst (Cached.count this (snd (Cached.updateItem this id updates (world_of v s l)))) =
  fst (Cached.count this (world_of v s l)).
Proof.
  intros Hopen Hwf. unfold Cached.updateItem, await.
  rewrite (Cached_getItem_quiet this Hopen). unfold store_get.
  destruct (lookup id (entries s)) as [existing|] eqn:Hex; simpl.
  - pose proof (updatedData_id (VObj existing) updates id) as Hid.
    rewrite (Cached_setItem_quiet this Hopen _ _ _ _ (given_key_valid _ _ Hid)).
    unfold resolved. simpl. rewrite !(Cached_count_quiet this _ _ _ Hopen). simpl.
    rewrite (store_put_key _ s id Hid). unfold store_count. simpl.
    now rewrite (insert_length_present id _ existing (entries s) (wf_sorted s Hwf) Hex).
  - unfold rejected. simpl. now rewrite !(Cached_count_quiet this _ _ _ Hopen).
Qed.

Lemma updateItem_keeps_count_witness :
  fst (Cached.count (fst opened)
         (snd (Cached.updateItem (fst opened) 3 [("name"%string, VStr "C")]
                 (world_of 1 five [])))) =
  fst (Cached.count (fst opened) (world_of 1 five [])).
Proof.
  apply (updateItem_keeps_count (fst opened) 1 five [] 3 [("name"%string, VStr "C")]).
  - reflexivity.
  - split; simpl.
    + repeat (constructor; [|repeat (constructor; try lia)]). constructor.
    + repeat constructor.
Defined.

(** ** The order of the calls in the per-call variant *)

Lemma two_steps_log {B C} (h : IDBDatabase) (mode : IDBTransactionMode)
    (m2 : IDBTransactionMode -> M B) (g : B -> outcome C) (w : world) :
  (forall m w1, exists rest, log (snd (m2 m w1)) = log w1 ++ rest) ->
  exists rest,
    log (snd (new_Promise (store <- transaction h mode ;; request <- m2 store ;;
                           ret (g request)) w)) = log w ++ rest.
Proof.
  intros H2. rewrite promise_two_steps.
  unfold transaction, bind, record_call, the_store, ret, throw.
  destruct (closed h); simpl; [eexists; reflexivity|].
  destruct (current_store _); simpl; [|eexists; reflexivity].
  match goal with
  | |- context [m2 ?m ?w1] =>
      destruct (H2 m w1) as [rest Hrest]; destruct (m2 m w1) as [[b|r] w2]
  end; simpl in *; rewrite Hrest; simpl; rewrite <- app_assoc; eexists; reflexivity.
Qed.

Lemma read_request_log {A} (f : IDBObjectStore -> A) (w : world) :
  log (snd (read_request f w)) = log w.
Proof.
  destruct w as [db fl lg]. unfold read_request, bind, next_fault, the_store, ret,
    current_store. simpl.
  destruct fl as [|[e|] fs]; simpl; try reflexivity; destruct db as [[dv [st|]]|]; reflexivity.
Qed.

Lemma write_request_log {A} (mode : IDBTransactionMode)
    (f : IDBObjectStore -> A * IDBObjectStore) (w : world) :
  log (snd (write_request mode f w)) = log w.
Proof.
  destruct w as [db fl lg]. destruct mode; [reflexivity|].
  unfold write_request, bind, next_fault, the_store, set_store, ret, current_store. simpl.
  destruct db as [[dv [st|]]|]; simpl; try reflexivity.
  destruct fl as [|[e|] [|[e'|] fs]]; reflexivity.
Qed.

Lemma request_logs (data : obj) (id : Z) (m : IDBTransactionMode) (w : world) :
  (exists rest, log (snd (put m data w)) = log w ++ rest) /\
  (exists rest, log (snd (get m id w)) = log w ++ rest) /\
  (exists rest, log (snd (getAll m w)) = log w ++ rest) /\
  (exists rest, log (snd (delete m id w)) = log w ++ rest) /\
  (exists rest, log (snd (clear_store m w)) = log w ++ rest).
Proof.
  unfold put, get, getAll, delete, clear_store, bind, record_call. simpl.
  repeat split; try (rewrite ?read_request_log, ?write_request_log; simpl; eauto).
  destruct (extract_key data); unfold throw; simpl;
    rewrite ?write_request_log; simpl; eauto.
Qed.

Lemma await_open_log {A} (this : PerCall.IDBHelper) (k : IDBDatabase -> Promise A)
    (w : world) :
  (forall h w1, exists rest, log (snd (k h w1)) = log w1 ++ rest) ->
  exists rest,
    log (snd (await (PerCall.openDB this) k w)) =
      log w ++ COpen (PerCall.version this) :: rest /\
    (rest <> [] -> fst (PerCall.openDB this w) = Resolved (mkHandle false)).
Proof.
  intros Hk. unfold await.
  destruct (PerCall_openDB_outcome this w) as [Hlog Hres].
  destruct (PerCall.openDB this w) as [[h|r|] w1]; simpl in *.
  - destruct (Hk h w1) as [rest Hrest].
    exists rest. rewrite Hrest, Hlog, <- app_assoc. split; [reflexivity|].
    intros _. now rewrite (Hres h eq_refl).
  - exists []. split; [exact Hlog | congruence].
  - exists []. split; [exact Hlog | congruence].
Qed.

(** X21: in the per-call variant every operation places its open request
    before any other call, in every state and whatever the engine answers,
    and makes a further call (the transaction, the request) only when that
    open resolved with a connection. *)
Theorem PerCall_always_opens_first
    (this : PerCall.IDBHelper) (data : obj) (id : Z) (w : world) :
  let opens_first (w' : world) :=
    exists rest,
      log w' = log w ++ COpen (PerCall.version this) :: rest /\
      (rest <> [] -> fst (PerCall.openDB this w) = Resolved (mkHandle false)) in
  opens_first (snd (PerCall.setItem this data w)) /\
  opens_first (snd (PerCall.getItem this id w)) /\
  opens_first (snd (PerCall.getAllItems this w)) /\
  opens_first (snd (PerCall.removeItem this id w)) /\
  opens_first (snd (PerCall.clear this w)).
Proof.
  intros opens_first. subst opens_first.
  unfold PerCall.setItem, PerCall.getItem, PerCall.getAllItems, PerCall.removeItem,
    PerCall.clear.
  repeat split; apply await_open_log; intros h w1; apply two_steps_log;
    intros m w2; apply (request_logs data id m w2).
Qed.

Lemma PerCall_always_opens_first_witness :
  let this := PerCall.mkHelper 1 in
  let w := fresh [Some UnknownError] in
  let opens_first (w' : world) :=
    exists rest,
      log w' = log w ++ COpen (PerCall.version this) :: rest /\
      (rest <> [] -> fst (PerCall.openDB this w) = Resolved (mkHandle false)) in
  opens_first (snd (PerCall.setItem this (named 1 "a") w)) /\
  opens_first (snd (PerCall.getItem this 1 w)) /\
  opens_first (snd (PerCall.getAllItems this w)) /\
  opens_first (snd (PerCall.removeItem this 1 w)) /\
  opens_first (snd (PerCall.clear this w)).
Proof.
  exact (PerCall_always_opens_first (PerCall.mkHelper 1) (named 1 "a") 1
           (fresh [Some UnknownError])).
Defined.

(** ** Failures of a single request, per call *)

(** X22: in the per-call variant, when the open goes through and the
    request of the operation fails, the promise is rejected with the
    engine's error of that request; the calls made are the open, the
    transaction and that one request, and the store is left as it was. *)
Theorem PerCall_request_failure_rejects_with_its_error
    (this : PerCall.IDBHelper) (s : IDBObjectStore) (l : list call)
    (e : DOMException) (fs : list (option DOMException)) (data : obj) (id : Z) :
  extract_key data <> KeyInvalid ->
  let v := PerCall.version this in
  let w := world_with v s (None :: Some e :: fs) l in
  PerCall.setItem this data w =
    (Rejected (RDom e),
     world_with v s fs (l ++ [COpen v; CTransaction Readwrite; CPut data])) /\
  PerCall.getItem this id w =
    (Rejected (RDom e),
     world_with v s fs (l ++ [COpen v; CTransaction Readonly; CGet id])) /\
  PerCall.getAllItems this w =
    (Rejected (RDom e),
     world_with v s fs (l ++ [COpen v; CTransaction Readonly; CGetAll])) /\
  PerCall.removeItem this id w =
    (Rejected (RDom e),
     world_with v s fs (l ++ [COpen v; CTransaction Readwrite; CDelete id])) /\
  PerCall.clear this w =
    (Rejected (RDom e),
     world_with v s fs (l ++ [COpen v; CTransaction Readwrite; CClear])).
Proof.
  intros Hk v w. subst v w.
  unfold PerCall.setItem, PerCall.getItem, PerCall.getAllItems, PerCall.removeItem,
    PerCall.clear, PerCall.openDB, process_open, await, world_with. run_promise.
  rewrite Z.ltb_irrefl, Z.eqb_refl. simpl.
  repeat split; try (now rewrite <- !app_assoc).
  destruct (extract_key data); [| |congruence]; simpl; now rewrite <- !app_assoc.
Qed.

Lemma PerCall_request_failure_rejects_with_its_error_witness :
  let this := PerCall.mkHelper 1 in
  let w := world_with 1 five (None :: Some UnknownError :: []) [] in
  PerCall.setItem this (named 9 "n") w =
    (Rejected (RDom UnknownError),
     world_with 1 five [] ([] ++ [COpen 1; CTransaction Readwrite; CPut (named 9 "n")])) /\
  PerCall.getItem this 3 w =
    (Rejected (RDom UnknownError),
     world_with 1 five [] ([] ++ [COpen 1; CTransaction Readonly; CGet 3])) /\
  PerCall.getAllItems this w =
    (Rejected (RDom UnknownError),
     world_with 1 five [] ([] ++ [COpen 1; CTransaction Readonly; CGetAll])) /\
  PerCall.removeItem this 3 w =
    (Rejected (RDom UnknownError),
     world_with 1 five [] ([] ++ [COpen 1; CTransaction Readwrite; CDelete 3])) /\
  PerCall.clear this w =
    (Rejected (RDom UnknownError),
     world_with 1 five [] ([] ++ [COpen 1; CTransaction Readwrite; CClear])).
Proof.
  intros this w.
  apply (PerCall_request_failure_rejects_with_its_error this five [] UnknownError []
           (named 9 "n") 3).
  discriminate.
Defined.

(** The cached variant, one failing request. *)
Lemma request_failure_rejects_with_its_error_witness :
  let this := fst opened in
  let w := world_with 1 five (Some UnknownError :: []) [] in
  Cached.setItem this (named 9 "n") w =
    (Rejected (RDom UnknownError),
     world_with 1 five [] ([] ++ [CTransaction Readwrite; CPut (named 9 "n")])) /\
  Cached.getItem this 3 w =
    (Rejected (RDom UnknownError),
     world_with 1 five [] ([] ++ [CTransaction Readonly; CGet 3])) /\
  Cached.getAllItems this w =
    (Rejected (RDom UnknownError),
     world_with 1 five [] ([] ++ [CTransaction Readonly; CGetAll])) /\
  Cached.removeItem this 3 w =
    (Rejected (RDom UnknownError),
     world_with 1 five [] ([] ++ [CTransaction Readwrite; CDelete 3])) /\
  Cached.clear this w =
    (Rejected (RDom UnknownError),
     world_with 1 five [] ([] ++ [CTransaction Readwrite; CClear])) /\
  Cached.hasItem this 3 w =
    (Rejected (RDom UnknownError),
     world_with 1 five [] ([] ++ [CTransaction Readonly; CGet 3])) /\
  Cached.count this w =
    (Rejected (RDom UnknownError),
     world_with 1 five [] ([] ++ [CTransaction Readonly; CCount])) /\
  Cached.updateItem this 3 (named 9 "n") w =
    (Rejected (RDom UnknownError),
     world_with 1 five [] ([] ++ [CTransaction Readonly; CGet 3])).
Proof.
  intros this w.
  apply (request_failure_rejects_with_its_error this 1 five [] UnknownError []
           (named 9 "n") 3).
  - reflexivity.
  - discriminate.
Defined.
